(** * Greedy tour construction of the TSP visualizer (src/app/page.tsx)

    A shallow embedding of the algorithmic core of class [TSPVisualizer]:
    [isValidNodePosition], [generateRandomGraph], [calculateDistanceMatrix],
    [findMinRoute] and the cost loop of [drawAnimationStep].  Drawing calls
    and React state setters have no influence on the values computed and are
    left out. *)

From Stdlib Require Import ZArith List Bool Lia.
From Stdlib Require Import Floats Uint63.
From stdpp Require Import base option list gmap.

Local Open Scope Z_scope.

(** ** Outcomes of running a method

    A method either returns, throws (reading a property of [undefined] is a
    [TypeError]) or is still running when the fuel given to its [while] loop
    is used up. *)

Inductive exn : Type := TypeError.

Inductive outcome (A : Type) : Type :=
| Return (a : A)
| Throw (e : exn)
| OutOfFuel.

Arguments Return {A} a.
Arguments Throw {A} e.
Arguments OutOfFuel {A}.

#[export] Instance outcome_ret : MRet outcome := fun A a => Return a.
#[export] Instance outcome_bind : MBind outcome := fun A B k m =>
  match m with
  | Return a => k a
  | Throw e => Throw e
  | OutOfFuel => OutOfFuel
  end.

(** ** JavaScript numbers

    The operations of the source on [number] values.  The development is
    parametric in them; [float_number] below instantiates them with IEEE 754
    binary64, which is what a JavaScript engine computes with.

    [floor] gives the integer [Math.floor] returns.  Its one use is on
    [Math.random() * 7], a number in [0, 7); the instance gives 0 for the
    arguments that have no integer part (the infinities and NaN). *)

Class Number : Type := {
  num : Type;
  of_Z : Z -> num;            (* an integer literal *)
  lit_0_2 : num;              (* the literal 0.2 *)
  infinity : num;             (* Infinity, Number.POSITIVE_INFINITY *)
  nan : num;                  (* NaN, the number an [undefined] operand becomes *)
  add : num -> num -> num;
  sub : num -> num -> num;
  mul : num -> num -> num;
  sqrt : num -> num;          (* Math.sqrt *)
  min : num -> num -> num;    (* Math.min *)
  floor : num -> Z;           (* Math.floor *)
  ltb : num -> num -> bool;   (* a < b *)
  leb : num -> num -> bool;   (* a <= b *)
  is_finite : num -> bool     (* Number.isFinite *)
}.

Module FloatNumber.

Definition of_Z (z : Z) : float :=
  if z <? 0 then PrimFloat.opp (PrimFloat.of_uint63 (Uint63.of_Z (- z)))
  else PrimFloat.of_uint63 (Uint63.of_Z z).

Definition min (a b : float) : float :=
  if PrimFloat.is_nan a || PrimFloat.is_nan b then PrimFloat.nan
  else if PrimFloat.ltb a b then a
  else if PrimFloat.ltb b a then b
  else if PrimFloat.get_sign a then a else b.

Definition floor (a : float) : Z :=
  match Prim2SF a with
  | S754_finite s m e => Z.shiftl (cond_Zopp s (Z.pos m)) e
  | _ => 0
  end.

End FloatNumber.

Definition float_number : Number := {|
  num := float;
  of_Z := FloatNumber.of_Z;
  lit_0_2 := PrimFloat.div (FloatNumber.of_Z 1) (FloatNumber.of_Z 5);
  infinity := PrimFloat.infinity;
  nan := PrimFloat.nan;
  add := PrimFloat.add;
  sub := PrimFloat.sub;
  mul := PrimFloat.mul;
  sqrt := PrimFloat.sqrt;
  min := FloatNumber.min;
  floor := FloatNumber.floor;
  ltb := PrimFloat.ltb;
  leb := PrimFloat.leb;
  is_finite := PrimFloat.is_finite
|}.

(** Zero, a positive finite number or +Infinity, in the specification of
    binary64. *)
Definition sf_nonneg (x : spec_float) : bool :=
  match x with
  | S754_zero _ => true
  | S754_infinity s | S754_finite s _ _ => negb s
  | S754_nan => false
  end.

(** Not NaN, and of sign [s] ([true] for minus). *)
Definition sf_signed (s : bool) (x : spec_float) : Prop :=
  match x with
  | S754_zero s' | S754_infinity s' | S754_finite s' _ _ => s' = s
  | S754_nan => False
  end.

(** ** Arrays

    [a[i]] for an integer [i]: [None] stands for [undefined], which is what
    an index outside [0 .. length - 1] reads. *)

Definition js_index {A : Type} (a : list A) (i : Z) : option A :=
  if i <? 0 then None else a !! Z.to_nat i.

(** [ToNumber] of a value read from an array of numbers. *)
Definition to_number `{Number} (v : option num) : num :=
  match v with
  | Some a => a
  | None => nan
  end.

Section Visualizer.
Context `{Number}.

Record Node : Type := {
  node_x : num;
  node_y : num;
  node_id : Z
}.

(** The fields of [TSPVisualizer] that the computations read or write;
    [canvas_width] and [canvas_height] are [this.canvas.width] and
    [this.canvas.height]. *)
Record TSPVisualizer : Type := {
  nodes : list Node;
  distanceMatrix : list (list num);
  canvas_width : num;
  canvas_height : num
}.

(** One entry of [steps]; [costAdded] is what was read from the matrix,
    so it may be [undefined]. *)
Record TourStep : Type := {
  currentCity : Z;
  nextCity : Z;
  currentPath : list Z;
  costAdded : option num
}.

Record TourResult : Type := {
  totalCost : num;
  finalPath : list Z;
  steps : list TourStep
}.

(** [this.distanceMatrix[i][j]]: a missing row makes the second index a
    property read on [undefined]. *)
Definition entry (M : list (list num)) (i j : Z) : outcome (option num) :=
  match js_index M i with
  | None => Throw TypeError
  | Some row => Return (js_index row j)
  end.

(** *** findMinRoute *)

(** The [for] loop over [j] (lines 391-396): [k] iterations are left,
    starting at index [j].  The matrix is read only when [j] is unvisited. *)
Fixpoint nearest (M : list (list num)) (visitedCities : gset Z)
    (currentCity : Z) (k : nat) (j : Z) (minDistance : num) (next : Z)
    : outcome (num * Z) :=
  match k with
  | O => Return (minDistance, next)
  | S k' =>
      if bool_decide (j ∈ visitedCities)
      then nearest M visitedCities currentCity k' (j + 1) minDistance next
      else
        d ← entry M currentCity j;
        match d with
        | Some dj =>
            if ltb dj minDistance
            then nearest M visitedCities currentCity k' (j + 1) dj j
            else nearest M visitedCities currentCity k' (j + 1) minDistance next
        | None => nearest M visitedCities currentCity k' (j + 1) minDistance next
        end
  end.

(** The local variables of [findMinRoute] that the [while] loop updates. *)
Record route_state : Type := {
  rs_totalCost : num;
  rs_currentCity : Z;
  rs_visitedCities : gset Z;
  rs_path : list Z;
  rs_steps : list TourStep
}.

(** The body of the [while] loop (lines 387-412). *)
Definition visit_next (M : list (list num)) (n : nat) (s : route_state)
    : outcome route_state :=
  '(minDistance, next) ← nearest M (rs_visitedCities s) (rs_currentCity s)
                            n 0 infinity (-1);
  if bool_decide (next ≠ -1)
  then Return {|
    rs_totalCost := add (rs_totalCost s) minDistance;
    rs_currentCity := next;
    rs_visitedCities := rs_visitedCities s ∪ {[ next ]};
    rs_path := rs_path s ++ [next];
    rs_steps := rs_steps s ++ [ {| currentCity := rs_currentCity s;
                                   nextCity := next;
                                   currentPath := rs_path s;
                                   costAdded := Some minDistance |} ]
  |}
  else Return s.

(** [while (visitedCities.size < n)]: one unit of fuel per iteration. *)
Fixpoint visit_all (fuel : nat) (M : list (list num)) (n : nat)
    (s : route_state) : outcome route_state :=
  if (size (rs_visitedCities s) <? n)%nat
  then match fuel with
       | O => OutOfFuel
       | S fuel' => s' ← visit_next M n s; visit_all fuel' M n s'
       end
  else Return s.

Definition findMinRoute (fuel : nat) (this : TSPVisualizer)
    (startNodeIndex : Z) : outcome TourResult :=
  let n := length (nodes this) in
  let M := distanceMatrix this in
  s ← visit_all fuel M n {|
         rs_totalCost := of_Z 0;
         rs_currentCity := startNodeIndex;
         rs_visitedCities := {[ startNodeIndex ]};
         rs_path := [startNodeIndex];
         rs_steps := [] |};
  returnCost ← entry M (rs_currentCity s) startNodeIndex;
  Return {|
    totalCost := add (rs_totalCost s) (to_number returnCost);
    finalPath := rs_path s ++ [startNodeIndex];
    steps := rs_steps s ++ [ {| currentCity := rs_currentCity s;
                                nextCity := startNodeIndex;
                                currentPath := rs_path s;
                                costAdded := returnCost |} ]
  |}.

End Visualizer.

(** ** Point placement and the distance matrix *)

Section Generation.
Context `{Number}.

(** [Math.sqrt(dx * dx + dy * dy)] with [dx = x1 - x2], [dy = y1 - y2]. *)
Definition euclidean (x1 y1 x2 y2 : num) : num :=
  let dx := sub x1 x2 in
  let dy := sub y1 y2 in
  sqrt (add (mul dx dx) (mul dy dy)).

(** [isValidNodePosition(x, y, minDistance)], over the nodes placed so far. *)
Fixpoint isValidNodePosition (placed : list Node) (x y minDistance : num)
    : bool :=
  match placed with
  | [] => true
  | node :: rest =>
      if ltb (euclidean x y (node_x node) (node_y node)) minDistance
      then false
      else isValidNodePosition rest x y minDistance
  end.

Definition minDistance : num := of_Z 38.
Definition padding : num := of_Z 50.
Definition maxAttempts : nat := 100.

(** A candidate coordinate: [Math.random() * (extent - 2 * padding) + padding]. *)
Definition candidate (r extent : num) : num :=
  add (mul r (sub extent (mul (of_Z 2) padding))) padding.

(** The [while (!validPosition && attempts < maxAttempts)] loop of lines
    147-153.  [rnd] is the sequence of values [Math.random()] returns and
    [c] the number of values already drawn; each attempt draws two.  The
    result is the position found, if any, and the number of values drawn
    when the loop ends. *)
Fixpoint find_position (rnd : nat -> num) (width height : num)
    (placed : list Node) (attempts_left c : nat)
    : option (num * num) * nat :=
  match attempts_left with
  | O => (None, c)
  | S a =>
      let x := candidate (rnd c) width in
      let y := candidate (rnd (S c)) height in
      if isValidNodePosition placed x y minDistance
      then (Some (x, y), S (S c))
      else find_position rnd width height placed a (S (S c))
  end.

(** The [for (let i = 0; i < numNodes; i++)] loop of lines 141-166, with
    [k] iterations left; a node that cannot be placed ends it ([break]). *)
Fixpoint place_nodes (rnd : nat -> num) (width height : num)
    (k : nat) (i : Z) (c : nat) (placed : list Node) : list Node :=
  match k with
  | O => placed
  | S k' =>
      match find_position rnd width height placed maxAttempts c with
      | (Some (x, y), c') =>
          place_nodes rnd width height k' (i + 1) c'
            (placed ++ [ {| node_x := x; node_y := y; node_id := i |} ])
      | (None, _) => placed
      end
  end.

(** [Math.floor(Math.random() * 7) + 3], from the first draw. *)
Definition numNodes (rnd : nat -> num) : Z :=
  floor (mul (rnd 0%nat) (of_Z 7)) + 3.

(** The value stored at [distanceMatrix[i][j]] (lines 185-197). *)
Definition distance_entry (ns : list Node) (i j : nat) : outcome num :=
  if bool_decide (i ≠ j)
  then match ns !! i, ns !! j with
       | Some ni, Some nj =>
           Return (min (mul (euclidean (node_x ni) (node_y ni)
                                       (node_x nj) (node_y nj)) lit_0_2)
                       (of_Z 99))
       | _, _ => Throw TypeError
       end
  else Return infinity.

(** [M[i][j] = v].  Every store of [calculateDistanceMatrix] has [i] and
    [j] below the length of the array written (see [fill_row_cells]), so it
    overwrites a cell and never extends an array. *)
Definition store (M : list (list num)) (i j : nat) (v : num)
    : outcome (list (list num)) :=
  match M !! i with
  | None => Throw TypeError
  | Some row => Return (<[ i := <[ j := v ]> row ]> M)
  end.

(** The inner loop over [j], [k] iterations left. *)
Fixpoint fill_row (ns : list Node) (i k j : nat) (M : list (list num))
    : outcome (list (list num)) :=
  match k with
  | O => Return M
  | S k' =>
      v ← distance_entry ns i j;
      M' ← store M i j v;
      fill_row ns i k' (S j) M'
  end.

(** The outer loop over [i], [k] iterations left. *)
Fixpoint fill_rows (ns : list Node) (n k i : nat) (M : list (list num))
    : outcome (list (list num)) :=
  match k with
  | O => Return M
  | S k' =>
      M' ← fill_row ns i n 0 M;
      fill_rows ns n k' (S i) M'
  end.

Definition calculateDistanceMatrix (this : TSPVisualizer)
    : outcome TSPVisualizer :=
  let n := length (nodes this) in
  M ← fill_rows (nodes this) n n 0 (replicate n (replicate n (of_Z 0)));
  Return {| nodes := nodes this;
            distanceMatrix := M;
            canvas_width := canvas_width this;
            canvas_height := canvas_height this |}.

Definition generateRandomGraph (rnd : nat -> num) (this : TSPVisualizer)
    : outcome TSPVisualizer :=
  let placed :=
    place_nodes rnd (canvas_width this) (canvas_height this)
                (Z.to_nat (numNodes rnd)) 0 1 [] in
  calculateDistanceMatrix {| nodes := placed;
                             distanceMatrix := distanceMatrix this;
                             canvas_width := canvas_width this;
                             canvas_height := canvas_height this |}.

(** ** The running cost of the animation *)

(** Lines 368-371 of [drawAnimationStep]: [k] iterations left, at index [i]. *)
Fixpoint cost_loop (steps : list TourStep) (k i : nat) (costSoFar : num)
    : outcome num :=
  match k with
  | O => Return costSoFar
  | S k' =>
      match steps !! i with
      | None => Throw TypeError
      | Some s =>
          cost_loop steps k' (S i) (add costSoFar (to_number (costAdded s)))
      end
  end.

(** The cost [drawAnimationStep(steps, currentStep)] prints. *)
Definition costSoFar (steps : list TourStep) (currentStep : nat)
    : outcome num :=
  cost_loop steps (S currentStep) 0 (of_Z 0).

End Generation.


(** ** Vocabulary of the statements *)

Section Vocabulary.
Context `{Number}.

(** A distance matrix for [n] points: [n] rows of [n] numbers, in which
    every entry off the diagonal is below Infinity. *)
Record distance_matrix_ok (n : nat) (M : list (list num)) : Prop := {
  dm_rows : length M = n;
  dm_cols : ∀ i row, M !! i = Some row → length row = n;
  dm_finite : ∀ i j row d,
    M !! i = Some row → row !! j = Some d → i ≠ j → ltb d infinity = true
}.

(** The sum of [costAdded] over a sequence of steps, added up from 0 in
    the order of the sequence. *)
Definition sum_costs (l : list TourStep) : num :=
  fold_left (fun acc s => add acc (to_number (costAdded s))) l (of_Z 0).

(** A trace follows a path: step [i] goes from the [i]-th to the [i+1]-st
    city of the path and records the path up to the [i]-th. *)
Definition steps_follow (l : list TourStep) (path : list Z) : Prop :=
  ∀ i step, l !! i = Some step →
    currentPath step = take (S i) path ∧
    path !! i = Some (currentCity step) ∧
    path !! S i = Some (nextCity step).

(** What the [while] loop of [findMinRoute] maintains, for [n] points and
    the start [start]. *)
Record route_inv (n : nat) (start : Z) (s : route_state) : Prop := {
  ri_visited : rs_visitedCities s = list_to_set (rs_path s);
  ri_nodup : NoDup (rs_path s);
  ri_range : ∀ c, c ∈ rs_path s → 0 ≤ c < Z.of_nat n;
  ri_head : head (rs_path s) = Some start;
  ri_last : last (rs_path s) = Some (rs_currentCity s);
  ri_len : length (rs_path s) = S (length (rs_steps s));
  ri_cost : rs_totalCost s = sum_costs (rs_steps s);
  ri_steps : steps_follow (rs_steps s) (rs_path s)
}.

(** The boolean form of [distance_matrix_ok]. *)
Definition entries_okb (i : nat) (row : list num) : bool :=
  forallb (fun b : bool => b)
          (imap (fun j d => bool_decide (i = j) || ltb d infinity) row).

Definition distance_matrix_okb (n : nat) (M : list (list num)) : bool :=
  bool_decide (length M = n) &&
  forallb (fun b : bool => b)
          (imap (fun i row => bool_decide (length row = n) && entries_okb i row)
                M).

(** [M[i][j]] for indices inside the matrix. *)
Definition matrix_get (M : list (list num)) (i j : nat) : option num :=
  row ← M !! i; row !! j.

(** [n] rows of [n] cells. *)
Definition square_shape (n : nat) (M : list (list num)) : Prop :=
  length M = n ∧ ∀ i row, M !! i = Some row → length row = n.

(** The entry the specification gives for two distinct points:
    [min(euclidean(p, q) * scaleFactor, cap)]. *)
Definition capped_distance (scaleFactor cap : num) (p q : Node) : num :=
  min (mul (euclidean (node_x p) (node_y p) (node_x q) (node_y q))
           scaleFactor) cap.

(** Every point of [placed] was valid against the points before it. *)
Definition accepted (placed : list Node) : Prop :=
  ∀ j q, placed !! j = Some q →
    isValidNodePosition (take j placed) (node_x q) (node_y q) minDistance
      = true.

(** A point with real coordinates. *)
Definition finite_node (p : Node) : Prop :=
  is_finite (node_x p) = true ∧ is_finite (node_y p) = true.

(** The laws of arithmetic and order that the statements on distances rest
    on, in the form in which binary64 arithmetic has them ([float_laws]):
    [leb (of_Z 0) a = true] says that [a] is a non-negative number or
    +Infinity, and not NaN. *)
Class NumberLaws : Prop := {
  ltb_irrefl : ∀ a, ltb a a = false;
  ltb_trans : ∀ a b c, ltb a b = true → ltb b c = true → ltb a c = true;
  not_lt_ge : ∀ a b,
    leb (of_Z 0) a = true → leb (of_Z 0) b = true →
    ltb a b = false → leb b a = true;
  of_Z_nonneg : ∀ z, 0 ≤ z → leb (of_Z 0) (of_Z z) = true;
  sub_sq_sym : ∀ a b, mul (sub a b) (sub a b) = mul (sub b a) (sub b a);
  sub_sq_nonneg : ∀ a b,
    is_finite a = true → is_finite b = true →
    leb (of_Z 0) (mul (sub a b) (sub a b)) = true;
  add_nonneg : ∀ a b,
    leb (of_Z 0) a = true → leb (of_Z 0) b = true →
    leb (of_Z 0) (add a b) = true;
  sqrt_nonneg : ∀ a, leb (of_Z 0) a = true → leb (of_Z 0) (sqrt a) = true;
  scale_nonneg : ∀ a,
    leb (of_Z 0) a = true → leb (of_Z 0) (mul a lit_0_2) = true;
  min_nonneg : ∀ a c,
    leb (of_Z 0) a = true → leb (of_Z 0) c = true →
    leb (of_Z 0) (min a c) = true;
  min_le : ∀ a c,
    leb (of_Z 0) a = true → leb (of_Z 0) c = true →
    leb (min a c) c = true;
  below_cap_finite : ∀ a, leb a (of_Z 99) = true → ltb a infinity = true;
  floor_unit : ∀ r,
    leb (of_Z 0) r = true → ltb r (of_Z 1) = true →
    0 ≤ floor (mul r (of_Z 7))
}.

End Vocabulary.

(** ** Example data

    The square of the specification in binary64 arithmetic: four points at
    (0,0), (10,0), (10,10), (0,10), with the matrix
    [calculateDistanceMatrix] computes for them. *)

Section FloatData.
#[local] Existing Instance float_number.

Definition point (px py : Z) (i : Z) : Node :=
  {| node_x := of_Z px; node_y := of_Z py; node_id := i |}.

Definition canvas (ns : list Node) (M : list (list num)) : TSPVisualizer :=
  {| nodes := ns; distanceMatrix := M;
     canvas_width := of_Z 800; canvas_height := of_Z 600 |}.

Definition square_nodes : list Node :=
  [point 0 0 0; point 10 0 1; point 10 10 2; point 0 10 3].

Definition square : TSPVisualizer :=
  Eval vm_compute in
    match calculateDistanceMatrix (canvas square_nodes []) with
    | Return this => this
    | _ => canvas square_nodes []
    end.

Definition square_steps : list TourStep :=
  Eval vm_compute in
    match findMinRoute 3 square 0 with
    | Return r => steps r
    | _ => []
    end.

(** The row of city 0 in the matrix of the square. *)
Definition square_row0 : list num :=
  Eval vm_compute in default [] (distanceMatrix square !! 0%nat).

(** A single point, with the matrix [calculateDistanceMatrix] gives it. *)
Definition single_point : TSPVisualizer :=
  Eval vm_compute in
    match calculateDistanceMatrix (canvas [point 0 0 0] []) with
    | Return this => this
    | _ => canvas [point 0 0 0] []
    end.

(** Draws for six points that all find room at the first attempt. *)
Definition six_draws (i : nat) : num :=
  nth i [0.5; 0.125; 0.125; 0.5; 0.5; 0.875; 0.875; 0.25; 0.75; 0.75; 0.25;
         0.125; 0.75]%float 0.5%float.

(** Two points with no finite entry between them. *)
Definition far_apart : TSPVisualizer :=
  canvas [point 0 0 0; point 10 0 1]
         [[infinity; infinity]; [infinity; infinity]].

(** The graph generated from [six_draws]. *)
Definition six_points : TSPVisualizer :=
  Eval vm_compute in
    match generateRandomGraph six_draws (canvas [] []) with
    | Return this => this
    | _ => canvas [] []
    end.

(** Draws that put every candidate at the centre of the canvas: six points
    are intended and only the first finds room. *)
Definition crowded_draws (i : nat) : num := 0.5%float.

Definition crowded : TSPVisualizer :=
  Eval vm_compute in
    match generateRandomGraph crowded_draws (canvas [] []) with
    | Return this => this
    | _ => canvas [] []
    end.

End FloatData.

(** ** Drawing, the animation and clicks

    The canvas calls are kept as a list of commands; the text drawn is
    given by the number or id it prints.  The callbacks of the animation
    are taken one by one, in the order in which they are scheduled
    ([setTimeout] then [requestAnimationFrame]); cancelling a scheduled
    callback ([cancelAnimationFrame]) is not part of the model. *)

(** [Math.round]. *)
Class Rounding `{Number} : Type := {
  round : num -> num
}.

(** [Math.round] on binary64: the closest integer, a tie going up; -0 for
    the numbers of [-0.5, 0). *)
Definition float_round (a : float) : float :=
  match Prim2SF a with
  | S754_finite s m e =>
      if 0 <=? e then a
      else
        let r := Z.shiftr (Z.shiftr (cond_Zopp s (Z.pos m)) (- e - 1) + 1) 1 in
        if r =? 0 then (if s then PrimFloat.neg_zero else PrimFloat.zero)
        else FloatNumber.of_Z r
  | _ => a
  end.

Definition float_rounding : @Rounding float_number :=
  @Build_Rounding float_number float_round.

Section Interaction.
Context `{Rounding}.

(** What is drawn on the canvas. *)
Inductive draw : Type :=
| Line (node1 node2 : Node)
    (* the grey edge from [node1] to [node2] *)
| Label (weight : num) (node1 node2 : Node)
    (* [weight.toString()] at the midpoint of [node1] and [node2] *)
| Dot (node : Node)
    (* the blue disc of [node] with [node.id.toString()] *)
| Segment (node1 node2 : Node)
    (* a green segment of the path so far *)
| Highlight (currentCity nextCity : Z) (node1 node2 : Node)
    (* the red edge, the two discs and the labels of the two cities *)
| CostText (costSoFar : num).
    (* "Total Cost So Far: " and [costSoFar.toFixed(2)] *)

(** What the host page is told, and what is painted. *)
Inductive ui_event : Type :=
| SetAnimating (animating : bool)
| SetTotalWeight (weight : option num)
| Paint (drawn : list draw).

(** *** drawGraph *)

(** The inner loop over [j] of lines 213-229, [k] iterations left. *)
Fixpoint draw_edges_from (this : TSPVisualizer) (i k j : nat)
    : outcome (list draw) :=
  match k with
  | O => Return []
  | S k' =>
      match nodes this !! i, nodes this !! j with
      | Some node1, Some node2 =>
          w ← entry (distanceMatrix this) (Z.of_nat i) (Z.of_nat j);
          rest ← draw_edges_from this i k' (S j);
          Return (Line node1 node2 ::
                  Label (round (to_number w)) node1 node2 :: rest)
      | _, _ => Throw TypeError
      end
  end.

(** The outer loop over [i] of lines 212-230, [k] iterations left. *)
Fixpoint draw_edges (this : TSPVisualizer) (n k i : nat)
    : outcome (list draw) :=
  match k with
  | O => Return []
  | S k' =>
      row ← draw_edges_from this i (n - S i) (S i);
      rest ← draw_edges this n k' (S i);
      Return (row ++ rest)
  end.

Definition drawGraph (this : TSPVisualizer) : outcome (list draw) :=
  let n := length (nodes this) in
  edges ← draw_edges this n n 0;
  Return (edges ++ map Dot (nodes this)).

(** *** drawAnimationStep *)

(** [this.nodes[c]] followed by a read of its coordinates. *)
Definition node_of (ns : list Node) (c : option Z) : outcome Node :=
  match c with
  | Some c' =>
      match js_index ns c' with
      | Some node => Return node
      | None => Throw TypeError
      end
  | None => Throw TypeError
  end.

(** The loop of lines 315-323 over the path of the step, [k] iterations
    left. *)
Fixpoint draw_path (ns : list Node) (path : list Z) (k i : nat)
    : outcome (list draw) :=
  match k with
  | O => Return []
  | S k' =>
      node1 ← node_of ns (path !! i);
      node2 ← node_of ns (path !! S i);
      rest ← draw_path ns path k' (S i);
      Return (Segment node1 node2 :: rest)
  end.

Definition drawAnimationStep (this : TSPVisualizer) (steps : list TourStep)
    (currentStep : nat) : outcome (list draw) :=
  graph ← drawGraph this;
  match steps !! currentStep with
  | None => Throw TypeError
  | Some step =>
      let path := currentPath step in
      segments ← draw_path (nodes this) path (length path - 1) 0;
      if (currentStep <? length steps)%nat
      then
        node1 ← node_of (nodes this) (Some (currentCity step));
        node2 ← node_of (nodes this) (Some (nextCity step));
        cost ← costSoFar steps currentStep;
        Return (graph ++ segments ++
                [Highlight (currentCity step) (nextCity step) node1 node2;
                 CostText cost])
      else Return (graph ++ segments)
  end.

(** *** startTSPAnimation *)

(** The variables the closure [animateStep] keeps: [result] and [step]. *)
Record animation : Type := {
  an_result : TourResult;
  an_step : nat
}.

(** One call of [animateStep] (lines 281-295): what it tells and paints,
    the closure afterwards, and whether it scheduled its next call. *)
Definition animateStep (this : TSPVisualizer) (a : animation)
    : outcome (list ui_event * animation * bool) :=
  if (an_step a <? length (steps (an_result a)))%nat
  then
    drawn ← drawAnimationStep this (steps (an_result a)) (an_step a);
    Return ([Paint drawn],
            {| an_result := an_result a; an_step := S (an_step a) |},
            true)
  else
    Return ([SetTotalWeight (Some (totalCost (an_result a)));
             SetAnimating false], a, false).

(** [startTSPAnimation(startNodeIndex)] up to the end of the first call of
    [animateStep].  The events are those that happened, also when the
    method does not return. *)
Definition startTSPAnimation (fuel : nat) (this : TSPVisualizer)
    (startNodeIndex : Z)
    : list ui_event * outcome (animation * bool) :=
  match findMinRoute fuel this startNodeIndex with
  | Return result =>
      match animateStep this {| an_result := result; an_step := 0 |} with
      | Return (events, a, scheduled) =>
          (SetAnimating true :: events, Return (a, scheduled))
      | Throw e => ([SetAnimating true], Throw e)
      | OutOfFuel => ([SetAnimating true], OutOfFuel)
      end
  | Throw e => ([SetAnimating true], Throw e)
  | OutOfFuel => ([SetAnimating true], OutOfFuel)
  end.

(** The next [ticks] scheduled calls of [animateStep], while one is
    scheduled. *)
Fixpoint play (this : TSPVisualizer) (ticks : nat) (a : animation)
    (scheduled : bool) : list ui_event * outcome (animation * bool) :=
  match ticks, scheduled with
  | S ticks', true =>
      match animateStep this a with
      | Return (events, a', scheduled') =>
          let '(later, end_) := play this ticks' a' scheduled' in
          (events ++ later, end_)
      | Throw e => ([], Throw e)
      | OutOfFuel => ([], OutOfFuel)
      end
  | _, _ => ([], Return (a, scheduled))
  end.

(** An animation from its start through [ticks] further callbacks. *)
Definition animate (fuel : nat) (this : TSPVisualizer) (startNodeIndex : Z)
    (ticks : nat) : list ui_event * outcome (animation * bool) :=
  match startTSPAnimation fuel this startNodeIndex with
  | (events, Return (a, scheduled)) =>
      let '(later, end_) := play this ticks a scheduled in
      (events ++ later, end_)
  | stopped => stopped
  end.

(** *** handleNodeClick *)

(** The loop of lines 251-262, [k] iterations left: the index of the first
    node whose centre is within 10 of the click. *)
Fixpoint clicked_node (ns : list Node) (x y : num) (k i : nat)
    : outcome (option nat) :=
  match k with
  | O => Return None
  | S k' =>
      match ns !! i with
      | None => Throw TypeError
      | Some node =>
          if leb (euclidean x y (node_x node) (node_y node)) (of_Z 10)
          then Return (Some i)
          else clicked_node ns x y k' (S i)
      end
  end.

(** [handleNodeClick(x, y)]: the animation started, if a node was hit. *)
Definition handleNodeClick (fuel : nat) (this : TSPVisualizer) (x y : num)
    : list ui_event * outcome (option (animation * bool)) :=
  match clicked_node (nodes this) x y (length (nodes this)) 0 with
  | Return (Some i) =>
      let '(events, started) := startTSPAnimation fuel this (Z.of_nat i) in
      (events, a ← started; Return (Some a))
  | Return None => ([], Return None)
  | Throw e => ([], Throw e)
  | OutOfFuel => ([], OutOfFuel)
  end.

End Interaction.

(** *** Vocabulary of the statements on the code above *)

Section MoreVocabulary.
Context `{Rounding}.

(** [M[a][b]] read as a number, for the cities [a] and [b]. *)
Definition edge_cost (M : list (list num)) (a b : Z) : option num :=
  row ← js_index M a; js_index row b.

(** The cost of walking along [path] in [M]: the entries of the
    consecutive pairs of cities, added up from 0 in path order. *)
Definition path_cost (M : list (list num)) (path : list Z) : num :=
  fold_left (fun acc ab => add acc (to_number (edge_cost M ab.1 ab.2)))
            (zip path (tail path)) (of_Z 0).

(** The state in which [findMinRoute] enters its loop. *)
Definition route_start (start : Z) : route_state :=
  {| rs_totalCost := of_Z 0;
     rs_currentCity := start;
     rs_visitedCities := {[ start ]};
     rs_path := [start];
     rs_steps := [] |}.

(** A step between two different cities of [0 .. n-1] whose cost is the
    entry of the matrix for them. *)
Definition step_cost_entry (M : list (list num)) (n : nat)
    (step : TourStep) : Prop :=
  (0 ≤ currentCity step < Z.of_nat n) ∧ (0 ≤ nextCity step < Z.of_nat n) ∧
  currentCity step ≠ nextCity step ∧
  ∃ d, edge_cost M (currentCity step) (nextCity step) = Some d ∧
       costAdded step = Some d.

(** A step to a nearest city: no city of [0 .. n-1] outside the path so far
    has an entry below the cost of the step. *)
Definition step_nearest (M : list (list num)) (n : nat)
    (step : TourStep) : Prop :=
  ∀ c dc d,
    0 ≤ c < Z.of_nat n → c ∉ currentPath step →
    edge_cost M (currentCity step) c = Some dc →
    costAdded step = Some d → ltb dc d = false.

(** What [drawGraph] is to draw for the pair [i], [j]: the line between the
    two nodes and the rounded entry of the matrix. *)
Definition edge_drawn (this : TSPVisualizer) (i j : nat) : list draw :=
  match nodes this !! i, nodes this !! j with
  | Some node1, Some node2 =>
      [Line node1 node2;
       Label (round (to_number (edge_cost (distanceMatrix this)
                                          (Z.of_nat i) (Z.of_nat j))))
             node1 node2]
  | _, _ => []
  end.

(** The edges [drawGraph] is to draw: those of every pair of indices
    [i < j], in the order of [i] and then [j]. *)
Definition graph_edges (this : TSPVisualizer) : list draw :=
  flat_map
    (fun i => flat_map (edge_drawn this i)
                       (seq (S i) (length (nodes this) - S i)))
    (seq 0 (length (nodes this))).

(** The green segment for the [i]-th edge of [path]. *)
Definition segment_drawn (ns : list Node) (path : list Z) (i : nat)
    : list draw :=
  match path !! i ≫= js_index ns, path !! S i ≫= js_index ns with
  | Some node1, Some node2 => [Segment node1 node2]
  | _, _ => []
  end.

(** The first [k] edges of [path], as green segments between nodes. *)
Definition tour_segments (ns : list Node) (path : list Z) (k : nat)
    : list draw :=
  flat_map (segment_drawn ns path) (seq 0 k).

(** The frame of tick [k] of the animation of the tour [r]: the graph, the
    first [k] edges of the final path in green, its next edge highlighted,
    and the cost of the steps [0 .. k]. *)
Definition tour_frame (this : TSPVisualizer) (r : TourResult) (k : nat)
    : list draw :=
  (graph_edges this ++ map Dot (nodes this)) ++
  tour_segments (nodes this) (finalPath r) k ++
  match finalPath r !! k, finalPath r !! S k with
  | Some a, Some b =>
      match js_index (nodes this) a, js_index (nodes this) b with
      | Some node1, Some node2 =>
          [Highlight a b node1 node2;
           CostText (sum_costs (take (S k) (steps r)))]
      | _, _ => []
      end
  | _, _ => []
  end.

(** The events of the first [ticks] frames of the animation of [r],
    starting at tick [k]. *)
Definition frames_painted (this : TSPVisualizer) (r : TourResult)
    (k ticks : nat) : list ui_event :=
  map (fun i => Paint (tour_frame this r i)) (seq k ticks).

(** Within 10 of the centre of [node]: the test of [handleNodeClick]. *)
Definition hits (x y : num) (node : Node) : bool :=
  leb (euclidean x y (node_x node) (node_y node)) (of_Z 10).

End MoreVocabulary.

(** ** Facts about array reads *)

Lemma js_index_nonneg {A : Type} (a : list A) (i : Z) :
  0 ≤ i → js_index a i = a !! Z.to_nat i.
Proof.
  intros Hi. unfold js_index.
  destruct (Z.ltb_spec i 0) as [Hneg | _]; [lia | reflexivity].
Qed.

Lemma js_index_outside {A : Type} (a : list A) (i : Z) :
  i < 0 ∨ Z.of_nat (length a) ≤ i → js_index a i = None.
Proof.
  intros Hi. unfold js_index.
  destruct (Z.ltb_spec i 0) as [Hneg | Hpos]; [reflexivity |].
  apply lookup_ge_None_2. lia.
Qed.

(** ** The scan for the nearest unvisited city *)

Section Nearest.
Context `{Number}.
Implicit Types (M : list (list num)) (visited : gset Z).

(** The scan returns, and its result is either what it started from or an
    unvisited index of the range scanned together with its entry. *)
Lemma nearest_result M visited cur row k :
  js_index M cur = Some row →
  ∀ j m nx, ∃ m' nx',
    nearest M visited cur k j m nx = Return (m', nx') ∧
    ((m' = m ∧ nx' = nx) ∨
     ((j ≤ nx' < j + Z.of_nat k) ∧ (nx' ∉ visited) ∧
      js_index row nx' = Some m')).
Proof.
  intros Hrow. induction k as [| k IH]; intros j m nx; cbn [nearest].
  { exists m, nx. split; [reflexivity | by left]. }
  assert (∃ m' nx',
            nearest M visited cur k (j + 1) m nx = Return (m', nx') ∧
            ((m' = m ∧ nx' = nx) ∨
             ((j ≤ nx' < j + Z.of_nat (S k)) ∧ (nx' ∉ visited) ∧
              js_index row nx' = Some m'))) as Hskip.
  { destruct (IH (j + 1) m nx) as (m' & nx' & Hrun & Hres).
    exists m', nx'. split; [exact Hrun |].
    destruct Hres as [? | (? & ? & ?)]; [by left | right].
    split; [lia | by split]. }
  case_bool_decide as Hvis; [exact Hskip |].
  unfold entry. rewrite Hrow. cbn [mbind outcome_bind].
  destruct (js_index row j) as [dj |] eqn:Hdj; [| exact Hskip].
  destruct (ltb dj m); [| exact Hskip].
  destruct (IH (j + 1) dj j) as (m' & nx' & Hrun & Hres).
  exists m', nx'. split; [exact Hrun |]. right.
  destruct Hres as [[-> ->] | (? & ? & ?)]; (split; [lia | by split]).
Qed.

(** Once a city has been chosen, the scan ends with a city chosen. *)
Lemma nearest_keeps M visited cur row k j m nx m' nx' :
  js_index M cur = Some row → 0 ≤ j → nx ≠ -1 →
  nearest M visited cur k j m nx = Return (m', nx') → nx' ≠ -1.
Proof.
  intros Hrow Hj Hnx Hrun.
  destruct (nearest_result M visited cur row k Hrow j m nx)
    as (m2 & nx2 & Heq & Hres).
  rewrite Heq in Hrun. injection Hrun as <- <-.
  destruct Hres as [[_ ->] | (? & _)]; [assumption | lia].
Qed.

(** A scan that starts with no city chosen and Infinity as the minimum
    chooses a city when some unvisited city of its range has an entry below
    Infinity. *)
Lemma nearest_finds M visited cur row k :
  js_index M cur = Some row →
  ∀ j m nx m' nx',
    0 ≤ j → (nx = -1 → m = infinity) →
    (∃ j' d, (j ≤ j' < j + Z.of_nat k) ∧ (j' ∉ visited) ∧
             js_index row j' = Some d ∧ ltb d infinity = true) →
    nearest M visited cur k j m nx = Return (m', nx') → nx' ≠ -1.
Proof.
  intros Hrow. induction k as [| k IH];
    intros j m nx m' nx' Hj Hinit (j' & d & Hrange & Hunv & Hd & Hfin) Hrun.
  - lia.
  - simpl in Hrun. case_bool_decide as Hvis.
    + apply (IH (j + 1) m nx m' nx'); auto; [lia |].
      exists j', d. repeat split; auto; try lia.
      destruct (decide (j' = j)) as [-> | ?]; [contradiction | lia].
    + unfold entry in Hrun. rewrite Hrow in Hrun. simpl in Hrun.
      destruct (js_index row j) as [dj |] eqn:Hdj.
      * destruct (ltb dj m) eqn:Hlt.
        -- eapply nearest_keeps; [exact Hrow | | | exact Hrun]; lia.
        -- destruct (decide (j' = j)) as [-> | Hne].
           ++ assert (nx ≠ -1) as Hnx.
              { intros Heq. rewrite (Hinit Heq) in Hlt. congruence. }
              eapply nearest_keeps; [exact Hrow | | exact Hnx | exact Hrun]; lia.
           ++ apply (IH (j + 1) m nx m' nx'); auto; [lia |].
              exists j', d. repeat split; auto; lia.
      * apply (IH (j + 1) m nx m' nx'); auto; [lia |].
        exists j', d. repeat split; auto; try lia.
        destruct (decide (j' = j)) as [-> | ?]; [congruence | lia].
Qed.

End Nearest.

(** ** The greedy loop *)

Section Route.
Context `{Number}.
Implicit Types (M : list (list num)) (s : route_state).

Lemma sum_costs_snoc (l : list TourStep) (st : TourStep) :
  sum_costs (l ++ [st]) = add (sum_costs l) (to_number (costAdded st)).
Proof. unfold sum_costs. by rewrite fold_left_app. Qed.

(** Appending the step taken from the end of the path, and the city it
    reaches, keeps the trace following the path. *)
Lemma steps_follow_snoc (l : list TourStep) (path : list Z)
    (cur next : Z) (cost : option num) :
  steps_follow l path → length path = S (length l) → last path = Some cur →
  steps_follow (l ++ [ {| currentCity := cur; nextCity := next;
                          currentPath := path; costAdded := cost |} ])
               (path ++ [next]).
Proof.
  intros Hsteps Hlen Hlast i step Hi.
  destruct (decide (i < length l)%nat) as [Hold | Hnew].
  - rewrite lookup_app_l in Hi by exact Hold.
    destruct (Hsteps i step Hi) as (Hp & Hc & Hn).
    rewrite take_app_le by lia.
    rewrite !lookup_app_l by lia. auto.
  - assert (i = length l) as ->.
    { apply lookup_lt_Some in Hi. rewrite length_app in Hi. simpl in Hi. lia. }
    rewrite list_lookup_middle in Hi by reflexivity.
    injection Hi as <-. cbn [currentPath currentCity nextCity].
    rewrite <- Hlen, take_app_length. split; [reflexivity |].
    split.
    + rewrite lookup_app_l by lia. rewrite last_lookup in Hlast.
      rewrite Hlen in Hlast. exact Hlast.
    + by rewrite list_lookup_middle.
Qed.

(** Fewer than [n] cities leave one of [0 .. n-1] out. *)
Lemma unvisited_exists (n : nat) (path : list Z) :
  (length path < n)%nat → ∃ j, (0 ≤ j < Z.of_nat n) ∧ j ∉ path.
Proof.
  intros Hlen.
  destruct (decide (Forall (fun j => j ∈ path) (seqZ 0 (Z.of_nat n))))
    as [Hall | Hsome].
  - exfalso.
    assert (seqZ 0 (Z.of_nat n) ⊆+ path) as Hsub.
    { apply NoDup_submseteq; [apply NoDup_seqZ |].
      intros j Hj. by eapply Forall_forall in Hall. }
    apply submseteq_length in Hsub. rewrite length_seqZ in Hsub. lia.
  - apply not_Forall_Exists in Hsome; [| intros j; apply _].
    apply Exists_exists in Hsome as (j & Hj & Hout).
    apply elem_of_seqZ in Hj. exists j. split; [lia | exact Hout].
Qed.

(** A duplicate-free path over [0 .. n-1] has at most [n] cities. *)
Lemma path_length_le (n : nat) (path : list Z) :
  NoDup path → (∀ c, c ∈ path → 0 ≤ c < Z.of_nat n) →
  (length path ≤ n)%nat.
Proof.
  intros Hnd Hrange.
  assert (path ⊆+ seqZ 0 (Z.of_nat n)) as Hsub.
  { apply NoDup_submseteq; [exact Hnd |].
    intros c Hc. apply elem_of_seqZ. specialize (Hrange c Hc). lia. }
  apply submseteq_length in Hsub. rewrite length_seqZ in Hsub. lia.
Qed.

Lemma route_inv_size n start s :
  route_inv n start s → size (rs_visitedCities s) = length (rs_path s).
Proof.
  intros Hinv. rewrite (ri_visited _ _ _ Hinv).
  apply size_list_to_set, (ri_nodup _ _ _ Hinv).
Qed.

Lemma route_inv_init (n : nat) (start : Z) :
  0 ≤ start < Z.of_nat n →
  route_inv n start {| rs_totalCost := of_Z 0;
                       rs_currentCity := start;
                       rs_visitedCities := {[ start ]};
                       rs_path := [start];
                       rs_steps := [] |}.
Proof.
  intros Hstart. constructor; simpl; try reflexivity.
  - by rewrite union_empty_r_L.
  - apply NoDup_singleton.
  - intros c Hc. apply list_elem_of_singleton in Hc. by subst.
  - intros i step Hi. by rewrite lookup_nil in Hi.
Qed.

(** One iteration of the loop on a valid matrix: a city is chosen and the
    invariant is kept. *)
Lemma visit_next_inv M n start s :
  distance_matrix_ok n M → route_inv n start s →
  (length (rs_path s) < n)%nat →
  ∃ s', visit_next M n s = Return s' ∧ route_inv n start s' ∧
        length (rs_path s') = S (length (rs_path s)).
Proof.
  intros HM Hinv Hlt.
  destruct Hinv as [Hvis Hnd Hrange Hhead Hlast Hlen Hcost Hsteps].
  assert (rs_currentCity s ∈ rs_path s) as Hcur.
  { rewrite last_lookup in Hlast. by eapply list_elem_of_lookup_2. }
  pose proof (Hrange _ Hcur) as Hcur_range.
  destruct (lookup_lt_is_Some_2 M (Z.to_nat (rs_currentCity s))) as [row Hrow].
  { rewrite (dm_rows _ _ HM). lia. }
  assert (js_index M (rs_currentCity s) = Some row) as Hrow'.
  { rewrite js_index_nonneg by lia. exact Hrow. }
  destruct (unvisited_exists n (rs_path s) Hlt) as (j' & Hj' & Hout).
  destruct (lookup_lt_is_Some_2 row (Z.to_nat j')) as [d Hd].
  { rewrite (dm_cols _ _ HM _ _ Hrow). lia. }
  assert (ltb d infinity = true) as Hfin.
  { apply (dm_finite _ _ HM _ _ _ _ Hrow Hd).
    intros Heq. apply Z2Nat.inj in Heq; [| lia | lia].
    apply Hout. by rewrite <- Heq. }
  destruct (nearest_result M (rs_visitedCities s) (rs_currentCity s) row n
              Hrow' 0 infinity (-1)) as (m' & nx & Hrun & Hres).
  assert (nx ≠ -1) as Hnx.
  { eapply (nearest_finds M (rs_visitedCities s) (rs_currentCity s) row n
              Hrow' 0 infinity (-1) m' nx); [lia | auto | | exact Hrun].
    exists j', d. split; [lia |]. split; [| split; [| exact Hfin]].
    - rewrite Hvis. by rewrite elem_of_list_to_set.
    - rewrite js_index_nonneg by lia. exact Hd. }
  destruct Hres as [[_ ->] | (Hnx_range & Hnx_unv & Hnx_d)]; [done |].
  rewrite Hvis, elem_of_list_to_set in Hnx_unv.
  unfold visit_next. rewrite Hrun. simpl.
  rewrite bool_decide_eq_true_2 by exact Hnx.
  eexists. split; [reflexivity |]. split; [constructor; simpl | simpl].
  - rewrite Hvis, list_to_set_app_L. simpl. by rewrite union_empty_r_L.
  - apply NoDup_app. split; [exact Hnd |]. split; [| apply NoDup_singleton].
    intros c Hc Hc'. apply list_elem_of_singleton in Hc'. by subst.
  - intros c Hc. apply elem_of_app in Hc as [Hc | Hc]; [by apply Hrange |].
    apply list_elem_of_singleton in Hc. subst. lia.
  - destruct (rs_path s); [discriminate | exact Hhead].
  - apply last_snoc.
  - rewrite !length_app. simpl. lia.
  - rewrite sum_costs_snoc. simpl. by rewrite Hcost.
  - by apply steps_follow_snoc.
  - rewrite length_app. simpl. lia.
Qed.

(** With a unit of fuel for each city still to visit, the loop ends with
    all [n] cities on the path. *)
Lemma visit_all_inv M n start :
  distance_matrix_ok n M →
  ∀ fuel s, route_inv n start s →
    (n ≤ length (rs_path s) + fuel)%nat →
    ∃ s', visit_all fuel M n s = Return s' ∧ route_inv n start s' ∧
          length (rs_path s') = n.
Proof.
  intros HM. induction fuel as [| fuel IH]; intros s Hinv Hfuel.
  - pose proof (path_length_le n _ (ri_nodup _ _ _ Hinv) (ri_range _ _ _ Hinv)).
    exists s. simpl. rewrite (route_inv_size _ _ _ Hinv).
    destruct (Nat.ltb_spec (length (rs_path s)) n); [lia |].
    split; [reflexivity | split; [exact Hinv | lia]].
  - pose proof (path_length_le n _ (ri_nodup _ _ _ Hinv) (ri_range _ _ _ Hinv)).
    simpl. rewrite (route_inv_size _ _ _ Hinv).
    destruct (Nat.ltb_spec (length (rs_path s)) n) as [Hlt | Hge].
    + destruct (visit_next_inv M n start s HM Hinv Hlt) as (s1 & -> & Hinv1 & Hlen1).
      simpl. apply IH; [exact Hinv1 | lia].
    + exists s. split; [reflexivity | split; [exact Hinv | lia]].
Qed.

End Route.

(** ** findMinRoute on a valid matrix *)

Section Tour.
Context `{Number}.

Lemma forallb_id_lookup (l : list bool) (i : nat) (b : bool) :
  forallb (fun b : bool => b) l = true → l !! i = Some b → b = true.
Proof.
  intros Hall Hi. rewrite forallb_forall in Hall.
  apply Hall, list_elem_of_In. by eapply list_elem_of_lookup_2.
Qed.

Lemma distance_matrix_okb_sound (n : nat) (M : list (list num)) :
  distance_matrix_okb n M = true → distance_matrix_ok n M.
Proof.
  unfold distance_matrix_okb. intros Hok.
  apply andb_true_iff in Hok as [Hrows Hall]. apply bool_decide_eq_true in Hrows.
  assert (∀ i row, M !! i = Some row →
            length row = n ∧ entries_okb i row = true) as Hrow.
  { intros i row Hi.
    assert (bool_decide (length row = n) && entries_okb i row = true) as Hb.
    { apply (forallb_id_lookup _ i _ Hall).
      by rewrite list_lookup_imap, Hi. }
    apply andb_true_iff in Hb as [Hlen Hent].
    by apply bool_decide_eq_true in Hlen. }
  constructor.
  - exact Hrows.
  - intros i row Hi. by destruct (Hrow i row Hi).
  - intros i j row d Hi Hj Hne.
    destruct (Hrow i row Hi) as [_ Hent]. unfold entries_okb in Hent.
    assert (bool_decide (i = j) || ltb d infinity = true) as Hb.
    { apply (forallb_id_lookup _ j _ Hent).
      by rewrite list_lookup_imap, Hj. }
    apply orb_true_iff in Hb as [Heq | Hlt]; [| exact Hlt].
    by apply bool_decide_eq_true in Heq.
Qed.

(** On a valid matrix and a start in range, [findMinRoute] returns as soon
    as the fuel covers the [n - 1] iterations of its loop, and its result
    has the shape below. *)
Lemma findMinRoute_valid (this : TSPVisualizer) (start : Z) (fuel : nat) :
  distance_matrix_ok (length (nodes this)) (distanceMatrix this) →
  0 ≤ start < Z.of_nat (length (nodes this)) →
  (length (nodes this) ≤ S fuel)%nat →
  ∃ r path,
    findMinRoute fuel this start = Return r ∧
    finalPath r = path ++ [start] ∧
    length path = length (nodes this) ∧
    NoDup path ∧
    (∀ c, c ∈ path → 0 ≤ c < Z.of_nat (length (nodes this))) ∧
    head path = Some start ∧
    length (steps r) = length (nodes this) ∧
    totalCost r = sum_costs (steps r) ∧
    steps_follow (steps r) (finalPath r).
Proof.
  intros HM Hstart Hfuel. set (n := length (nodes this)) in *.
  destruct (visit_all_inv (distanceMatrix this) n start HM fuel _
              (route_inv_init n start Hstart)) as (s & Hrun & Hinv & Hlen).
  { simpl. lia. }
  destruct Hinv as [Hvis Hnd Hrange Hhead Hlast Hlen' Hcost Hsteps].
  assert (rs_currentCity s ∈ rs_path s) as Hcur.
  { rewrite last_lookup in Hlast. by eapply list_elem_of_lookup_2. }
  pose proof (Hrange _ Hcur) as Hcur_range.
  destruct (lookup_lt_is_Some_2 (distanceMatrix this)
              (Z.to_nat (rs_currentCity s))) as [row Hrow].
  { rewrite (dm_rows _ _ HM). lia. }
  unfold findMinRoute. fold n. rewrite Hrun. simpl.
  unfold entry. rewrite js_index_nonneg by lia. rewrite Hrow. simpl.
  eexists. exists (rs_path s). split; [reflexivity |]. simpl.
  split; [reflexivity |]. split; [exact Hlen |]. split; [exact Hnd |].
  split; [exact Hrange |]. split; [exact Hhead |].
  split; [rewrite length_app; simpl; lia |].
  split; [rewrite sum_costs_snoc; simpl; by rewrite Hcost |].
  by apply steps_follow_snoc.
Qed.

(** The last city of the path a step records is the city the step leaves. *)
Lemma last_take_S {A : Type} (l : list A) (i : nat) (x : A) :
  l !! i = Some x → last (take (S i) l) = Some x.
Proof.
  intros Hi. pose proof (lookup_lt_Some _ _ _ Hi) as Hlt.
  rewrite last_lookup, length_take, lookup_take.
  replace (Init.Nat.pred (S i `min` length l)) with i by lia.
  by rewrite decide_True by lia.
Qed.

(** A duplicate-free list of [n] ids in [0 .. n-1] holds each of them. *)
Lemma path_covers (n : nat) (path : list Z) (c : Z) :
  NoDup path → (∀ c, c ∈ path → 0 ≤ c < Z.of_nat n) → length path = n →
  0 ≤ c < Z.of_nat n → c ∈ path.
Proof.
  intros Hnd Hrange Hlen Hc.
  assert (path ⊆+ seqZ 0 (Z.of_nat n)) as Hsub.
  { apply NoDup_submseteq; [exact Hnd |].
    intros a Ha. apply elem_of_seqZ. specialize (Hrange a Ha). lia. }
  apply submseteq_length_Permutation in Hsub.
  - rewrite Hsub. apply elem_of_seqZ. lia.
  - rewrite length_seqZ. lia.
Qed.

(** C1.  For a valid distance matrix over N >= 2 points and a start id in
    [0, N), findMinRoute returns a result with exactly N steps, a final path
    of N + 1 ids that begins and ends with the start id, and in whose first
    N ids every id of 0 .. N-1 occurs exactly once. *)
Theorem findMinRoute_is_tour (this : TSPVisualizer) (start : Z) (fuel : nat) :
  distance_matrix_ok (length (nodes this)) (distanceMatrix this) →
  (2 ≤ length (nodes this))%nat →
  0 ≤ start < Z.of_nat (length (nodes this)) →
  (length (nodes this) ≤ S fuel)%nat →
  ∃ r, findMinRoute fuel this start = Return r ∧
    length (steps r) = length (nodes this) ∧
    length (finalPath r) = S (length (nodes this)) ∧
    finalPath r !! 0%nat = Some start ∧
    finalPath r !! length (nodes this) = Some start ∧
    ∀ c, 0 ≤ c < Z.of_nat (length (nodes this)) →
      count_occ Z.eq_dec (take (length (nodes this)) (finalPath r)) c = 1%nat.
Proof.
  intros HM _ Hstart Hfuel.
  destruct (findMinRoute_valid this start fuel HM Hstart Hfuel)
    as (r & path & Hrun & Hfinal & Hlen & Hnd & Hrange & Hhead & Hsteps & _).
  exists r. split; [exact Hrun |]. split; [exact Hsteps |].
  rewrite Hfinal. split; [rewrite length_app; simpl; lia |].
  split.
  { destruct path as [| a path]; [discriminate |]. exact Hhead. }
  split; [by apply list_lookup_middle |].
  intros c Hc. rewrite <- Hlen, take_app_length.
  apply NoDup_count_occ'; [by apply NoDup_ListNoDup |].
  apply list_elem_of_In. by apply (path_covers (length (nodes this))).
Qed.

(** C5.  On a valid input the total cost findMinRoute returns is the sum of
    costAdded over the steps it returns, added up from 0 in step order. *)
Theorem findMinRoute_totalCost (this : TSPVisualizer) (start : Z) (fuel : nat) :
  distance_matrix_ok (length (nodes this)) (distanceMatrix this) →
  0 ≤ start < Z.of_nat (length (nodes this)) →
  (length (nodes this) ≤ S fuel)%nat →
  ∃ r, findMinRoute fuel this start = Return r ∧
       totalCost r = sum_costs (steps r).
Proof.
  intros HM Hstart Hfuel.
  destruct (findMinRoute_valid this start fuel HM Hstart Hfuel)
    as (r & path & Hrun & _ & _ & _ & _ & _ & _ & Hcost & _).
  by exists r.
Qed.

(** C9.  On a valid input with N >= 2 the path each step records ends with
    the city the step leaves and is the prefix finalPath[0..i] of the final
    path; the first step leaves the start id, and every step leaves the city
    the step before it reached. *)
Theorem findMinRoute_trace (this : TSPVisualizer) (start : Z) (fuel : nat) :
  distance_matrix_ok (length (nodes this)) (distanceMatrix this) →
  (2 ≤ length (nodes this))%nat →
  0 ≤ start < Z.of_nat (length (nodes this)) →
  (length (nodes this) ≤ S fuel)%nat →
  ∃ r, findMinRoute fuel this start = Return r ∧
    (∀ i step, steps r !! i = Some step →
       last (currentPath step) = Some (currentCity step) ∧
       currentPath step = take (S i) (finalPath r)) ∧
    (∃ step0, steps r !! 0%nat = Some step0 ∧ currentCity step0 = start) ∧
    (∀ i step step', steps r !! i = Some step → steps r !! S i = Some step' →
       currentCity step' = nextCity step).
Proof.
  intros HM Hn Hstart Hfuel.
  destruct (findMinRoute_valid this start fuel HM Hstart Hfuel)
    as (r & path & Hrun & Hfinal & Hlen & _ & _ & Hhead & Hsteps & _ & Hfollow).
  exists r. split; [exact Hrun |]. split; [| split].
  - intros i step Hi. destruct (Hfollow i step Hi) as (Hpath & Hcur & _).
    split; [| exact Hpath]. rewrite Hpath. by apply last_take_S.
  - destruct (lookup_lt_is_Some_2 (steps r) 0) as [step0 Hstep0]; [lia |].
    exists step0. split; [exact Hstep0 |].
    destruct (Hfollow 0%nat step0 Hstep0) as (_ & Hcur & _).
    rewrite Hfinal in Hcur. destruct path as [| a path]; [discriminate |].
    simpl in Hhead, Hcur. congruence.
  - intros i step step' Hi Hi'.
    destruct (Hfollow i step Hi) as (_ & _ & Hnext).
    destruct (Hfollow (S i) step' Hi') as (_ & Hcur & _). congruence.
Qed.

End Tour.

(** ** Inputs outside the contract, the single point, ties *)

Section Edge.
Context `{Number}.
Implicit Types (M : list (list num)) (visited : gset Z).

Lemma visit_all_unfold (fuel : nat) M (n : nat) (s : route_state) :
  visit_all fuel M n s =
  if (size (rs_visitedCities s) <? n)%nat
  then match fuel with
       | O => OutOfFuel
       | S fuel' => s' ← visit_next M n s; visit_all fuel' M n s'
       end
  else Return s.
Proof. by destruct fuel. Qed.

(** C2.  When the point set is empty or the start id is outside [0, N)
    (for N = 0 every start id is), findMinRoute ends in an error and returns
    no result: the row [distanceMatrix[startNodeIndex]] is [undefined] and
    reading an entry of it throws a TypeError, before any step is recorded. *)
Theorem findMinRoute_invalid_input (this : TSPVisualizer) (start : Z)
    (fuel : nat) :
  length (distanceMatrix this) = length (nodes this) →
  start < 0 ∨ Z.of_nat (length (nodes this)) ≤ start →
  (1 ≤ fuel)%nat →
  findMinRoute fuel this start = Throw TypeError.
Proof.
  intros Hrows Hout Hfuel.
  assert (js_index (distanceMatrix this) start = None) as Hrow.
  { apply js_index_outside. by rewrite Hrows. }
  unfold findMinRoute. rewrite visit_all_unfold.
  cbn [rs_visitedCities]. rewrite size_singleton.
  destruct (Nat.ltb_spec 1 (length (nodes this))) as [Hn | Hn].
  - destruct fuel as [| fuel]; [lia |].
    unfold visit_next. cbn [rs_visitedCities rs_currentCity].
    destruct (length (nodes this)) as [| k]; [lia |]. cbn [nearest].
    rewrite bool_decide_eq_false_2.
    + unfold entry. by rewrite Hrow.
    + intros Hin. apply elem_of_singleton in Hin. lia.
  - cbn [mbind outcome_bind rs_currentCity]. unfold entry. by rewrite Hrow.
Qed.

(** C3, as the code has it.  For a single point and the 1×1 matrix [[d]],
    findMinRoute called with start id 0 skips the loop and records the
    closing step from 0 to 0: the result has totalCost = 0 + d, finalPath =
    [0, 0] and that one step, whose cost is d. *)
Theorem findMinRoute_single_point (this : TSPVisualizer) (d : num)
    (fuel : nat) :
  length (nodes this) = 1%nat →
  distanceMatrix this = [[d]] →
  findMinRoute fuel this 0 =
  Return {| totalCost := add (of_Z 0) d;
            finalPath := [0; 0];
            steps := [ {| currentCity := 0; nextCity := 0;
                          currentPath := [0]; costAdded := Some d |} ] |}.
Proof.
  intros Hn HM. unfold findMinRoute. rewrite visit_all_unfold, Hn, HM.
  cbn [rs_visitedCities]. by rewrite size_singleton.
Qed.

(** After the scan has passed [p] with [p] chosen at the minimum [d], no
    later city replaces it. *)
Lemma nearest_after M visited cur row (d : num) (p : Z) (k : nat) :
  js_index M cur = Some row →
  ∀ j,
    (∀ c dc, j ≤ c < j + Z.of_nat k → c ∉ visited →
             js_index row c = Some dc → ltb dc d = false) →
    nearest M visited cur k j d p = Return (d, p).
Proof.
  intros Hrow. induction k as [| k IH]; intros j Hmin; [reflexivity |].
  cbn [nearest]. case_bool_decide as Hvis.
  - apply IH. intros c dc Hc. apply Hmin. lia.
  - unfold entry. rewrite Hrow. cbn [mbind outcome_bind].
    destruct (js_index row j) as [dj |] eqn:Hdj.
    + rewrite (Hmin j dj) by (auto; lia).
      apply IH. intros c dc Hc. apply Hmin. lia.
    + apply IH. intros c dc Hc. apply Hmin. lia.
Qed.

(** While the scan has not reached [p], its minimum stays above [d]; at
    [p] it chooses [p]. *)
Lemma nearest_upto M visited cur row (d : num) (p : Z) (k : nat) :
  js_index M cur = Some row →
  p ∉ visited → js_index row p = Some d →
  ∀ j m nx,
    j ≤ p < j + Z.of_nat k →
    ltb d m = true →
    (∀ c dc, j ≤ c < p → c ∉ visited →
             js_index row c = Some dc → ltb d dc = true) →
    (∀ c dc, p < c < j + Z.of_nat k → c ∉ visited →
             js_index row c = Some dc → ltb dc d = false) →
    nearest M visited cur k j m nx = Return (d, p).
Proof.
  intros Hrow Hp Hd. induction k as [| k IH];
    intros j m nx Hrange Hm Hfirst Hmin; [lia |].
  cbn [nearest]. destruct (decide (j = p)) as [-> | Hne].
  - rewrite bool_decide_eq_false_2 by exact Hp.
    unfold entry. rewrite Hrow. cbn [mbind outcome_bind]. rewrite Hd, Hm.
    apply (nearest_after M visited cur row); [exact Hrow |].
    intros c dc Hc. apply Hmin. lia.
  - assert (∀ m' nx', ltb d m' = true →
              nearest M visited cur k (j + 1) m' nx' = Return (d, p)) as Hnext.
    { intros m' nx' Hm'. apply IH; [lia | exact Hm' | |].
      - intros c dc Hc. apply Hfirst. lia.
      - intros c dc Hc. apply Hmin. lia. }
    case_bool_decide as Hvis; [by apply Hnext |].
    unfold entry. rewrite Hrow. cbn [mbind outcome_bind].
    destruct (js_index row j) as [dj |] eqn:Hdj; [| by apply Hnext].
    destruct (ltb dj m); [| by apply Hnext].
    apply Hnext. apply (Hfirst j dj); auto. lia.
Qed.

(** C4.  In any state of the greedy loop (current city [cur], visited set
    [visited]), if the unvisited cities p < q both have the minimum distance
    d from the current city, and p is the lowest index with that distance,
    the builder selects p: the scan returns (d, p) and the loop body moves
    to p. *)
Theorem nearest_tie_lowest_index M visited (cur : Z) (row : list num)
    (n : nat) (p q : Z) (d : num) (s : route_state) :
  js_index M cur = Some row →
  0 ≤ p < q → q < Z.of_nat n →
  p ∉ visited → q ∉ visited →
  js_index row p = Some d → js_index row q = Some d →
  ltb d infinity = true →
  (∀ c dc, 0 ≤ c < Z.of_nat n → c ∉ visited →
           js_index row c = Some dc → ltb dc d = false) →
  (∀ c dc, 0 ≤ c < p → c ∉ visited →
           js_index row c = Some dc → ltb d dc = true) →
  rs_visitedCities s = visited → rs_currentCity s = cur →
  nearest M visited cur n 0 infinity (-1) = Return (d, p) ∧
  ∃ s', visit_next M n s = Return s' ∧
        rs_currentCity s' = p ∧
        rs_path s' = rs_path s ++ [p] ∧
        p ≠ q.
Proof.
  intros Hrow Hpq Hq Hp Hq' Hdp Hdq Hfin Hmin Hfirst Hs_vis Hs_cur.
  assert (nearest M visited cur n 0 infinity (-1) = Return (d, p)) as Hscan.
  { apply (nearest_upto M visited cur row); auto; try lia.
    intros c dc Hc. apply Hmin. lia. }
  split; [exact Hscan |].
  unfold visit_next. rewrite Hs_vis, Hs_cur, Hscan.
  cbn [mbind outcome_bind]. rewrite bool_decide_eq_true_2 by lia.
  eexists. split; [reflexivity |]. cbn. repeat split. lia.
Qed.

(** Under the laws of a strict order, a city at the same distance as an
    unvisited city of lower index is never selected: the comparison is
    strict, so an equal entry does not replace the minimum. *)
Lemma nearest_skips_tie `{!NumberLaws} M visited cur row (d : num) (q : Z)
    (k : nat) :
  js_index M cur = Some row → js_index row q = Some d →
  ∀ j m nx m' nx',
    ltb d m = false → nx ≠ q →
    nearest M visited cur k j m nx = Return (m', nx') → nx' ≠ q.
Proof.
  intros Hrow Hq. induction k as [| k IH]; intros j m nx m' nx' Hm Hnx Hrun.
  - by injection Hrun as _ <-.
  - cbn [nearest] in Hrun. case_bool_decide as Hvis; [by eapply IH |].
    unfold entry in Hrun. rewrite Hrow in Hrun. cbn [mbind outcome_bind] in Hrun.
    destruct (js_index row j) as [dj |] eqn:Hdj; [| by eapply IH].
    destruct (ltb dj m) eqn:Hlt; [| by eapply IH].
    apply (IH (j + 1) dj j m' nx'); [| | exact Hrun].
    + destruct (ltb d dj) eqn:Hd; [| reflexivity].
      rewrite (ltb_trans d dj m Hd Hlt) in Hm. discriminate.
    + intros ->. rewrite Hq in Hdj. injection Hdj as <-. congruence.
Qed.

Lemma nearest_not_later_tie `{!NumberLaws} M visited cur row (d : num)
    (p q : Z) (k : nat) :
  js_index M cur = Some row →
  p < q → p ∉ visited →
  js_index row p = Some d → js_index row q = Some d →
  ∀ j m nx m' nx',
    j ≤ p < j + Z.of_nat k → nx ≠ q →
    nearest M visited cur k j m nx = Return (m', nx') → nx' ≠ q.
Proof.
  intros Hrow Hpq Hp Hdp Hdq. induction k as [| k IH];
    intros j m nx m' nx' Hrange Hnx Hrun; [lia |].
  cbn [nearest] in Hrun. destruct (decide (j = p)) as [-> | Hne].
  - rewrite bool_decide_eq_false_2 in Hrun by exact Hp.
    unfold entry in Hrun. rewrite Hrow in Hrun.
    cbn [mbind outcome_bind] in Hrun. rewrite Hdp in Hrun.
    destruct (ltb d m) eqn:Hlt.
    + apply (nearest_skips_tie M visited cur row d q k Hrow Hdq
               (p + 1) d p m' nx'); [apply ltb_irrefl | lia | exact Hrun].
    + apply (nearest_skips_tie M visited cur row d q k Hrow Hdq
               (p + 1) m nx m' nx'); [exact Hlt | exact Hnx | exact Hrun].
  - assert (∀ m0 nx0, nx0 ≠ q →
              nearest M visited cur k (j + 1) m0 nx0 = Return (m', nx') →
              nx' ≠ q) as Hnext.
    { intros m0 nx0 Hnx0. apply IH; [lia | exact Hnx0]. }
    case_bool_decide as Hvis; [by eapply Hnext |].
    unfold entry in Hrun. rewrite Hrow in Hrun.
    cbn [mbind outcome_bind] in Hrun.
    destruct (js_index row j) as [dj |]; [| by eapply Hnext].
    destruct (ltb dj m); [| by eapply Hnext].
    eapply Hnext; [| exact Hrun]. lia.
Qed.

(** A loop body that changes nothing is repeated for ever: when no
    unvisited city has an entry below Infinity, [findMinRoute] does not
    return. *)
Lemma visit_all_stuck M (n : nat) (s : route_state) :
  visit_next M n s = Return s →
  (size (rs_visitedCities s) < n)%nat →
  ∀ fuel, visit_all fuel M n s = OutOfFuel.
Proof.
  intros Hsame Hsize. induction fuel as [| fuel IH];
    rewrite visit_all_unfold;
    destruct (Nat.ltb_spec (size (rs_visitedCities s)) n); try lia;
    [reflexivity |].
  rewrite Hsame. exact IH.
Qed.

(** ** The cost printed by the animation *)

Lemma cost_loop_prefix (l : list TourStep) (k : nat) :
  ∀ i acc, (i + k ≤ length l)%nat →
    cost_loop l k i acc =
    Return (fold_left (fun a s => add a (to_number (costAdded s)))
                      (take k (drop i l)) acc).
Proof.
  induction k as [| k IH]; intros i acc Hlen; [reflexivity |].
  cbn [cost_loop].
  destruct (lookup_lt_is_Some_2 l i) as [s Hs]; [lia |].
  rewrite Hs, (drop_S l s i Hs). cbn [take fold_left].
  apply IH. lia.
Qed.

(** C8.  For a tick index k below the number of steps, the cost the render
    computes is the sum of costAdded over steps[0..k] inclusive; it is a
    function of the trace and the tick index alone. *)
Theorem costSoFar_prefix_sum (l : list TourStep) (k : nat) :
  (k < length l)%nat →
  costSoFar l k = Return (sum_costs (take (S k) l)).
Proof.
  intros Hk. unfold costSoFar, sum_costs.
  rewrite cost_loop_prefix by lia. by rewrite drop_0.
Qed.

End Edge.

(** ** The distance matrix *)

Section Matrix.
Context `{Number}.
Implicit Types (M : list (list num)) (ns : list Node).

Lemma matrix_get_store M (n i j : nat) (v : num) :
  square_shape n M → (i < n)%nat → (j < n)%nat →
  ∃ M', store M i j v = Return M' ∧ square_shape n M' ∧
        ∀ a b, matrix_get M' a b =
               if decide (a = i ∧ b = j) then Some v else matrix_get M a b.
Proof.
  intros [Hrows Hcols] Hi Hj.
  destruct (lookup_lt_is_Some_2 M i) as [row Hrow]; [lia |].
  pose proof (Hcols i row Hrow) as Hlen.
  unfold store. rewrite Hrow. eexists. split; [reflexivity |]. split.
  - split; [by rewrite length_insert |].
    intros a r Ha. destruct (decide (a = i)) as [-> | Hne].
    + rewrite list_lookup_insert_eq in Ha by lia.
      injection Ha as <-. by rewrite length_insert.
    + rewrite list_lookup_insert_ne in Ha by auto. by eapply Hcols.
  - intros a b. unfold matrix_get. destruct (decide (a = i)) as [-> | Hne].
    + rewrite list_lookup_insert_eq by lia. rewrite Hrow. simpl.
      destruct (decide (b = j)) as [-> | Hne'].
      * rewrite decide_True by auto. apply list_lookup_insert_eq. lia.
      * rewrite decide_False by (intros [_ ?]; auto).
        by apply list_lookup_insert_ne.
    + rewrite list_lookup_insert_ne by auto.
      by rewrite decide_False by (intros [? _]; auto).
Qed.

(** Inside the point list [distance_entry] returns. *)
Lemma distance_entry_returns ns (i j : nat) :
  (i < length ns)%nat → (j < length ns)%nat →
  ∃ v, distance_entry ns i j = Return v.
Proof.
  intros Hi Hj. unfold distance_entry.
  destruct (lookup_lt_is_Some_2 ns i Hi) as [ni Hni].
  destruct (lookup_lt_is_Some_2 ns j Hj) as [nj Hnj].
  rewrite Hni, Hnj. case_bool_decide; eauto.
Qed.

(** The inner loop writes the cells [j .. j+k-1] of row [i] and no other. *)
Lemma fill_row_cells ns (n i : nat) :
  length ns = n → (i < n)%nat →
  ∀ k j M, (j + k ≤ n)%nat → square_shape n M →
    ∃ M', fill_row ns i k j M = Return M' ∧ square_shape n M' ∧
          ∀ a b, matrix_get M' a b =
                 if decide (a = i ∧ (j ≤ b < j + k)%nat)
                 then (if distance_entry ns i b is Return v then Some v else None)
                 else matrix_get M a b.
Proof.
  intros Hns Hi. induction k as [| k IH]; intros j M Hjk Hshape.
  - exists M. split; [reflexivity |]. split; [exact Hshape |].
    intros a b. by rewrite decide_False by lia.
  - cbn [fill_row].
    destruct (distance_entry_returns ns i j) as [v Hv]; [lia | lia |].
    rewrite Hv. cbn [mbind outcome_bind].
    destruct (matrix_get_store M n i j v Hshape) as (M1 & -> & Hshape1 & Hget1);
      [lia | lia |].
    cbn [mbind outcome_bind].
    destruct (IH (S j) M1) as (M' & -> & Hshape' & Hget'); [lia | exact Hshape1 |].
    exists M'. split; [reflexivity |]. split; [exact Hshape' |].
    intros a b. rewrite Hget', Hget1.
    destruct (decide (a = i ∧ (S j ≤ b < S j + k)%nat)) as [[-> Hb] | Hout].
    + by rewrite decide_True by (split; [reflexivity | lia]).
    + destruct (decide (a = i ∧ b = j)) as [[-> ->] | Hout'].
      * rewrite decide_True by (split; [reflexivity | lia]). by rewrite Hv.
      * rewrite decide_False; [reflexivity |]. intros [-> Hb].
        destruct (decide (b = j)) as [-> | ?]; [by apply Hout' |].
        apply Hout. split; [reflexivity | lia].
Qed.

(** The outer loop writes the rows [i .. i+k-1] and no other. *)
Lemma fill_rows_cells ns (n : nat) :
  length ns = n →
  ∀ k i M, (i + k ≤ n)%nat → square_shape n M →
    ∃ M', fill_rows ns n k i M = Return M' ∧ square_shape n M' ∧
          ∀ a b, matrix_get M' a b =
                 if decide ((i ≤ a < i + k)%nat ∧ (b < n)%nat)
                 then (if distance_entry ns a b is Return v then Some v else None)
                 else matrix_get M a b.
Proof.
  intros Hns. induction k as [| k IH]; intros i M Hik Hshape.
  - exists M. split; [reflexivity |]. split; [exact Hshape |].
    intros a b. by rewrite decide_False by lia.
  - cbn [fill_rows].
    destruct (fill_row_cells ns n i Hns ltac:(lia) n 0%nat M ltac:(lia) Hshape)
      as (M1 & -> & Hshape1 & Hget1).
    cbn [mbind outcome_bind].
    destruct (IH (S i) M1) as (M' & -> & Hshape' & Hget'); [lia | exact Hshape1 |].
    exists M'. split; [reflexivity |]. split; [exact Hshape' |].
    intros a b. rewrite Hget', Hget1.
    destruct (decide ((S i ≤ a < S i + k)%nat ∧ (b < n)%nat)) as [[Ha Hb] | Hout].
    + by rewrite decide_True by lia.
    + destruct (decide (a = i ∧ (0 ≤ b < 0 + n)%nat)) as [[-> Hb] | Hout'].
      * by rewrite decide_True by lia.
      * rewrite decide_False; [reflexivity |]. intros [Ha Hb].
        destruct (decide (a = i)) as [-> | ?]; [apply Hout'; lia | apply Hout; lia].
Qed.

Lemma replicate_square_shape (n : nat) (v : num) :
  square_shape n (replicate n (replicate n v)).
Proof.
  split; [apply length_replicate |].
  intros i row Hi. apply lookup_replicate in Hi as [-> _].
  apply length_replicate.
Qed.

(** [calculateDistanceMatrix] returns, leaves the points as they are, and
    every cell of its matrix holds what [distance_entry] computes. *)
Lemma calculateDistanceMatrix_cells (this : TSPVisualizer) :
  ∃ M, calculateDistanceMatrix this =
         Return {| nodes := nodes this; distanceMatrix := M;
                   canvas_width := canvas_width this;
                   canvas_height := canvas_height this |} ∧
       square_shape (length (nodes this)) M ∧
       ∀ i j, (i < length (nodes this))%nat → (j < length (nodes this))%nat →
         distance_entry (nodes this) i j =
           Return (default nan (matrix_get M i j)) ∧
         is_Some (matrix_get M i j).
Proof.
  unfold calculateDistanceMatrix.
  destruct (fill_rows_cells (nodes this) (length (nodes this)) eq_refl
              (length (nodes this)) 0%nat
              (replicate (length (nodes this))
                 (replicate (length (nodes this)) (of_Z 0)))
              ltac:(lia) (replicate_square_shape _ _))
    as (M & -> & Hshape & Hget).
  exists M. split; [reflexivity |]. split; [exact Hshape |].
  intros i j Hi Hj. rewrite Hget. rewrite decide_True by lia.
  destruct (distance_entry_returns (nodes this) i j Hi Hj) as [v ->].
  split; [reflexivity | by eexists].
Qed.

Lemma euclidean_sym `{!NumberLaws} (x1 y1 x2 y2 : num) :
  euclidean x1 y1 x2 y2 = euclidean x2 y2 x1 y1.
Proof.
  unfold euclidean.
  by rewrite (sub_sq_sym x1 x2), (sub_sq_sym y1 y2).
Qed.

Lemma euclidean_nonneg `{!NumberLaws} (x1 y1 x2 y2 : num) :
  is_finite x1 = true → is_finite y1 = true →
  is_finite x2 = true → is_finite y2 = true →
  leb (of_Z 0) (euclidean x1 y1 x2 y2) = true.
Proof.
  intros Hx1 Hy1 Hx2 Hy2. unfold euclidean.
  apply sqrt_nonneg, add_nonneg; by apply sub_sq_nonneg.
Qed.

(** The cells of the matrix [calculateDistanceMatrix] computes. *)
Lemma calculateDistanceMatrix_entries `{!NumberLaws} (this : TSPVisualizer) :
  (∀ p, p ∈ nodes this → finite_node p) →
  ∃ M, calculateDistanceMatrix this =
         Return {| nodes := nodes this; distanceMatrix := M;
                   canvas_width := canvas_width this;
                   canvas_height := canvas_height this |} ∧
       square_shape (length (nodes this)) M ∧
       (∀ i, (i < length (nodes this))%nat →
          matrix_get M i i = Some infinity) ∧
       (∀ i j, (i < length (nodes this))%nat → (j < length (nodes this))%nat →
          i ≠ j → matrix_get M i j = matrix_get M j i) ∧
       (∀ i j p q, nodes this !! i = Some p → nodes this !! j = Some q →
          i ≠ j →
          matrix_get M i j = Some (capped_distance lit_0_2 (of_Z 99) p q) ∧
          leb (of_Z 0) (capped_distance lit_0_2 (of_Z 99) p q) = true ∧
          leb (capped_distance lit_0_2 (of_Z 99) p q) (of_Z 99) = true).
Proof.
  intros Hfinite.
  destruct (calculateDistanceMatrix_cells this) as (M & Hrun & Hshape & Hcells).
  assert (∀ i j p q, nodes this !! i = Some p → nodes this !! j = Some q →
            i ≠ j →
            matrix_get M i j = Some (capped_distance lit_0_2 (of_Z 99) p q))
    as Hoff.
  { intros i j p q Hp Hq Hne.
    destruct (Hcells i j) as [Hval [v Hv]];
      [by eapply lookup_lt_Some | by eapply lookup_lt_Some |].
    rewrite Hv in Hval |- *. simpl in Hval. unfold distance_entry in Hval.
    rewrite bool_decide_eq_true_2, Hp, Hq in Hval by exact Hne.
    by injection Hval as <-. }
  exists M. split; [exact Hrun |]. split; [exact Hshape |].
  split; [| split].
  - intros i Hi. destruct (Hcells i i Hi Hi) as [Hval [v Hv]].
    rewrite Hv in Hval |- *. simpl in Hval. unfold distance_entry in Hval.
    rewrite bool_decide_eq_false_2 in Hval by auto.
    by injection Hval as <-.
  - intros i j Hi Hj Hne.
    destruct (lookup_lt_is_Some_2 (nodes this) i Hi) as [p Hp].
    destruct (lookup_lt_is_Some_2 (nodes this) j Hj) as [q Hq].
    rewrite (Hoff i j p q Hp Hq Hne), (Hoff j i q p Hq Hp) by auto.
    unfold capped_distance. by rewrite euclidean_sym.
  - intros i j p q Hp Hq Hne. split; [by apply (Hoff i j) |].
    destruct (Hfinite p) as [Hpx Hpy]; [by eapply list_elem_of_lookup_2 |].
    destruct (Hfinite q) as [Hqx Hqy]; [by eapply list_elem_of_lookup_2 |].
    assert (leb (of_Z 0)
              (mul (euclidean (node_x p) (node_y p) (node_x q) (node_y q))
                   lit_0_2) = true) as Hscaled.
    { by apply scale_nonneg, euclidean_nonneg. }
    assert (leb (of_Z 0) (of_Z 99) = true) as Hcap by (apply of_Z_nonneg; lia).
    unfold capped_distance. split; [by apply min_nonneg | by apply min_le].
Qed.

(** C6.  For every point set (of points with real coordinates),
    calculateDistanceMatrix produces an N×N matrix M with M[i][i] = Infinity,
    M[i][j] = M[j][i] for i ≠ j, and for i ≠ j the entry
    min(euclidean(points[i], points[j]) * 0.2, 99), which lies in [0, 99]. *)
Theorem calculateDistanceMatrix_spec `{!NumberLaws} (this : TSPVisualizer) :
  (∀ p, p ∈ nodes this → finite_node p) →
  ∃ M, calculateDistanceMatrix this =
         Return {| nodes := nodes this; distanceMatrix := M;
                   canvas_width := canvas_width this;
                   canvas_height := canvas_height this |} ∧
       square_shape (length (nodes this)) M ∧
       (∀ i, (i < length (nodes this))%nat →
          matrix_get M i i = Some infinity) ∧
       (∀ i j, (i < length (nodes this))%nat → (j < length (nodes this))%nat →
          i ≠ j → matrix_get M i j = matrix_get M j i) ∧
       (∀ i j p q, nodes this !! i = Some p → nodes this !! j = Some q →
          i ≠ j →
          matrix_get M i j = Some (capped_distance lit_0_2 (of_Z 99) p q) ∧
          leb (of_Z 0) (capped_distance lit_0_2 (of_Z 99) p q) = true ∧
          leb (capped_distance lit_0_2 (of_Z 99) p q) (of_Z 99) = true).
Proof.
  intros Hfinite.
  destruct (calculateDistanceMatrix_cells this) as (M & Hrun & Hshape & Hcells).
  assert (∀ i j p q, nodes this !! i = Some p → nodes this !! j = Some q →
            i ≠ j →
            matrix_get M i j = Some (capped_distance lit_0_2 (of_Z 99) p q))
    as Hoff.
  { intros i j p q Hp Hq Hne.
    destruct (Hcells i j) as [Hval [v Hv]];
      [by eapply lookup_lt_Some | by eapply lookup_lt_Some |].
    rewrite Hv in Hval |- *. simpl in Hval. unfold distance_entry in Hval.
    rewrite bool_decide_eq_true_2, Hp, Hq in Hval by exact Hne.
    by injection Hval as <-. }
  exists M. split; [exact Hrun |]. split; [exact Hshape |].
  split; [| split].
  - intros i Hi. destruct (Hcells i i Hi Hi) as [Hval [v Hv]].
    rewrite Hv in Hval |- *. simpl in Hval. unfold distance_entry in Hval.
    rewrite bool_decide_eq_false_2 in Hval by auto.
    by injection Hval as <-.
  - intros i j Hi Hj Hne.
    destruct (lookup_lt_is_Some_2 (nodes this) i Hi) as [p Hp].
    destruct (lookup_lt_is_Some_2 (nodes this) j Hj) as [q Hq].
    rewrite (Hoff i j p q Hp Hq Hne), (Hoff j i q p Hq Hp) by auto.
    unfold capped_distance. by rewrite euclidean_sym.
  - intros i j p q Hp Hq Hne. split; [by apply (Hoff i j) |].
    destruct (Hfinite p) as [Hpx Hpy]; [by eapply list_elem_of_lookup_2 |].
    destruct (Hfinite q) as [Hqx Hqy]; [by eapply list_elem_of_lookup_2 |].
    assert (leb (of_Z 0)
              (mul (euclidean (node_x p) (node_y p) (node_x q) (node_y q))
                   lit_0_2) = true) as Hscaled.
    { by apply scale_nonneg, euclidean_nonneg. }
    assert (leb (of_Z 0) (of_Z 99) = true) as Hcap by (apply of_Z_nonneg; lia).
    unfold capped_distance. split; [by apply min_nonneg | by apply min_le].
Qed.

(** The matrix computed for points with real coordinates is one on which
    [findMinRoute] returns: its entries off the diagonal are below
    Infinity. *)
Lemma calculateDistanceMatrix_ok `{!NumberLaws} (this : TSPVisualizer) :
  (∀ p, p ∈ nodes this → finite_node p) →
  ∃ this', calculateDistanceMatrix this = Return this' ∧
    nodes this' = nodes this ∧
    distance_matrix_ok (length (nodes this')) (distanceMatrix this').
Proof.
  intros Hfinite.
  destruct (calculateDistanceMatrix_entries this Hfinite)
    as (M & Hrun & [Hrows Hcols] & _ & _ & Hoff).
  eexists. split; [exact Hrun |]. split; [reflexivity |]. cbn.
  constructor; [exact Hrows | exact Hcols |].
  intros i j row d Hi Hj Hne.
  destruct (lookup_lt_is_Some_2 (nodes this) i) as [p Hp].
  { rewrite <- Hrows. by eapply lookup_lt_Some. }
  destruct (lookup_lt_is_Some_2 (nodes this) j) as [q Hq].
  { rewrite <- (Hcols i row Hi). by eapply lookup_lt_Some. }
  destruct (Hoff i j p q Hp Hq Hne) as (Hget & _ & Hle).
  unfold matrix_get in Hget. rewrite Hi in Hget. simpl in Hget.
  rewrite Hj in Hget. injection Hget as ->.
  by apply below_cap_finite.
Qed.

(** From the points to the tour: on the matrix computed for points with
    real coordinates, [findMinRoute] returns from every start in range. *)
Corollary findMinRoute_on_computed_matrix `{!NumberLaws}
    (this : TSPVisualizer) (start : Z) (fuel : nat) :
  (∀ p, p ∈ nodes this → finite_node p) →
  0 ≤ start < Z.of_nat (length (nodes this)) →
  (length (nodes this) ≤ S fuel)%nat →
  ∃ this' r, calculateDistanceMatrix this = Return this' ∧
             findMinRoute fuel this' start = Return r ∧
             length (steps r) = length (nodes this) ∧
             totalCost r = sum_costs (steps r).
Proof.
  intros Hfinite Hstart Hfuel.
  destruct (calculateDistanceMatrix_ok this Hfinite)
    as (this' & Hrun & Hnodes & HM).
  destruct (findMinRoute_valid this' start fuel HM)
    as (r & path & Hroute & _ & _ & _ & _ & _ & Hlen & Hcost & _);
    try by rewrite Hnodes.
  exists this', r. by rewrite <- Hnodes.
Qed.

End Matrix.

(** ** Point placement *)

Section Placement.
Context `{Number}.
Implicit Types (placed : list Node) (rnd : nat → num).

Lemma isValidNodePosition_true placed (x y md : num) :
  isValidNodePosition placed x y md = true ↔
  ∀ p, p ∈ placed → ltb (euclidean x y (node_x p) (node_y p)) md = false.
Proof.
  induction placed as [| p placed IH]; simpl.
  - split; [| reflexivity]. intros _ p Hp. by apply elem_of_nil in Hp.
  - destruct (ltb (euclidean x y (node_x p) (node_y p)) md) eqn:Hlt.
    + split; [discriminate |]. intros Hall.
      rewrite Hall in Hlt by apply list_elem_of_here. discriminate.
    + rewrite IH. split.
      * intros Hall p' Hp'. apply elem_of_cons in Hp' as [-> | Hp']; auto.
      * intros Hall p' Hp'. apply Hall. by apply list_elem_of_further.
Qed.

(** A position the attempts loop returns passed the validity check. *)
Lemma find_position_valid rnd (w h : num) placed (a c c' : nat) (x y : num) :
  find_position rnd w h placed a c = (Some (x, y), c') →
  isValidNodePosition placed x y minDistance = true.
Proof.
  revert c. induction a as [| a IH]; intros c; simpl; [discriminate |].
  destruct (isValidNodePosition placed (candidate (rnd c) w)
              (candidate (rnd (S c)) h) minDistance) eqn:Hvalid.
  - intros [= <- <- _]. exact Hvalid.
  - apply IH.
Qed.

Lemma accepted_snoc placed (q : Node) :
  accepted placed →
  isValidNodePosition placed (node_x q) (node_y q) minDistance = true →
  accepted (placed ++ [q]).
Proof.
  intros Hacc Hvalid j q' Hj.
  destruct (decide (j < length placed)%nat) as [Hold | Hnew].
  - rewrite lookup_app_l in Hj by exact Hold.
    rewrite take_app_le by lia. by apply Hacc.
  - assert (j = length placed) as ->.
    { apply lookup_lt_Some in Hj. rewrite length_app in Hj. simpl in Hj. lia. }
    rewrite list_lookup_middle in Hj by reflexivity. injection Hj as <-.
    by rewrite take_app_length.
Qed.

(** The placement loop only appends to the points it starts from, and
    every point it appends was valid when appended. *)
Lemma place_nodes_accepted rnd (w h : num) (k : nat) :
  ∀ i c placed, accepted placed →
    accepted (place_nodes rnd w h k i c placed) ∧
    placed `prefix_of` place_nodes rnd w h k i c placed.
Proof.
  induction k as [| k IH]; intros i c placed Hacc; cbn [place_nodes];
    [done |].
  destruct (find_position rnd w h placed maxAttempts c)
    as [[[x y] |] c'] eqn:Hfind; [| done].
  apply find_position_valid in Hfind.
  destruct (IH (i + 1) c'
              (placed ++ [ {| node_x := x; node_y := y; node_id := i |} ]))
    as [Hacc' Hpre].
  { by apply accepted_snoc. }
  split; [exact Hacc' |].
  etrans; [| exact Hpre]. by apply prefix_app_r.
Qed.

(** Accepted points are pairwise separated: the later point of a pair is
    not closer than [minDistance] to the earlier one. *)
Lemma accepted_separated placed (i j : nat) (p q : Node) :
  accepted placed → (i < j)%nat →
  placed !! i = Some p → placed !! j = Some q →
  ltb (euclidean (node_x q) (node_y q) (node_x p) (node_y p)) minDistance
    = false.
Proof.
  intros Hacc Hij Hp Hq.
  pose proof (Hacc j q Hq) as Hvalid.
  rewrite isValidNodePosition_true in Hvalid. apply Hvalid.
  apply list_elem_of_lookup. exists i.
  rewrite lookup_take. by rewrite decide_True by lia.
Qed.

(** Between points with real coordinates the separation reads: the
    distance is at least [minDistance]. *)
Lemma accepted_separated_ge `{!NumberLaws} placed (i j : nat) (p q : Node) :
  accepted placed → (i < j)%nat →
  placed !! i = Some p → placed !! j = Some q →
  finite_node p → finite_node q →
  leb minDistance
      (euclidean (node_x q) (node_y q) (node_x p) (node_y p)) = true.
Proof.
  intros Hacc Hij Hp Hq [Hpx Hpy] [Hqx Hqy].
  apply not_lt_ge.
  - by apply euclidean_nonneg.
  - apply of_Z_nonneg. lia.
  - by apply (accepted_separated placed i j).
Qed.

Lemma generateRandomGraph_nodes rnd (this : TSPVisualizer) :
  ∃ M, generateRandomGraph rnd this =
    Return {| nodes := place_nodes rnd (canvas_width this) (canvas_height this)
                         (Z.to_nat (numNodes rnd)) 0 1 [];
              distanceMatrix := M;
              canvas_width := canvas_width this;
              canvas_height := canvas_height this |}.
Proof.
  unfold generateRandomGraph.
  match goal with
  | |- ∃ M, calculateDistanceMatrix ?t = _ =>
      destruct (calculateDistanceMatrix_cells t) as (M & HM & _)
  end.
  exists M. exact HM.
Qed.

(** C7.  In every point set generateRandomGraph returns, whatever the
    random draws, every pair of distinct accepted points is at least
    minSeparation = 38 apart: for each pair, the test [distance < 38] of the
    later point against the earlier one failed, and for points with real
    coordinates their distance is >= 38.  This holds of the sets that were not
    truncated; a point is accepted only if it passes the validity check
    against all points accepted before it. *)
Theorem generateRandomGraph_separated `{!NumberLaws} rnd
    (this : TSPVisualizer) :
  ∃ this', generateRandomGraph rnd this = Return this' ∧
    (¬ Z.of_nat (length (nodes this')) < numNodes rnd →
     ∀ i j p q, (i < j)%nat →
       nodes this' !! i = Some p → nodes this' !! j = Some q →
       ltb (euclidean (node_x q) (node_y q) (node_x p) (node_y p)) (of_Z 38)
         = false ∧
       (finite_node p → finite_node q →
        leb (of_Z 38)
            (euclidean (node_x q) (node_y q) (node_x p) (node_y p)) = true)) ∧
    (∀ j q, nodes this' !! j = Some q →
       isValidNodePosition (take j (nodes this')) (node_x q) (node_y q)
         (of_Z 38) = true).
Proof.
  destruct (generateRandomGraph_nodes rnd this) as [M Hrun].
  eexists. split; [exact Hrun |]. cbn [nodes].
  destruct (place_nodes_accepted rnd (canvas_width this) (canvas_height this)
              (Z.to_nat (numNodes rnd)) 0 1%nat []) as [Hacc _].
  { intros j q Hj. by rewrite lookup_nil in Hj. }
  split.
  - intros _ i j p q Hij Hp Hq. split.
    + exact (accepted_separated _ i j p q Hacc Hij Hp Hq).
    + intros Hfp Hfq.
      exact (accepted_separated_ge _ i j p q Hacc Hij Hp Hq Hfp Hfq).
  - exact Hacc.
Qed.

(** With at least one point intended, the first candidate is accepted. *)
Lemma place_nodes_first rnd (w h : num) (k : nat) (i : Z) (c : nat) :
  (0 < k)%nat →
  place_nodes rnd w h k i c [] !! 0%nat =
    Some {| node_x := candidate (rnd c) w;
            node_y := candidate (rnd (S c)) h;
            node_id := i |}.
Proof.
  intros Hk. destruct k as [| k]; [lia |].
  cbn [place_nodes]. change maxAttempts with (S 99).
  cbn [find_position isValidNodePosition app].
  destruct (place_nodes_accepted rnd w h k (i + 1) (S (S c))
              [ {| node_x := candidate (rnd c) w;
                   node_y := candidate (rnd (S c)) h;
                   node_id := i |} ]) as [_ [rest ->]].
  { intros j q Hj. destruct j as [| j]; [reflexivity |].
    simpl in Hj. by rewrite lookup_nil in Hj. }
  reflexivity.
Qed.

(** With at least one point intended, the point set is not empty and its
    first point is the first candidate drawn. *)
Lemma generateRandomGraph_first rnd (this : TSPVisualizer) :
  0 < numNodes rnd →
  ∃ this', generateRandomGraph rnd this = Return this' ∧
    nodes this' ≠ [] ∧
    (1 ≤ length (nodes this'))%nat ∧
    isValidNodePosition [] (candidate (rnd 1%nat) (canvas_width this))
      (candidate (rnd 2%nat) (canvas_height this)) minDistance = true ∧
    nodes this' !! 0%nat =
      Some {| node_x := candidate (rnd 1%nat) (canvas_width this);
              node_y := candidate (rnd 2%nat) (canvas_height this);
              node_id := 0 |}.
Proof.
  intros Hcount.
  destruct (generateRandomGraph_nodes rnd this) as [M Hrun].
  eexists. split; [exact Hrun |]. cbn [nodes].
  assert (0 < Z.to_nat (numNodes rnd))%nat as Hk by lia.
  pose proof (place_nodes_first rnd (canvas_width this) (canvas_height this)
                _ 0 1%nat Hk) as Hfirst.
  split; [| split; [| split; [reflexivity | exact Hfirst]]].
  - intros Hnil. by rewrite Hnil in Hfirst.
  - apply lookup_lt_Some in Hfirst. lia.
Qed.

(** C10.  Whatever the random draws (the first one in [0, 1), as
    Math.random gives them), generateRandomGraph produces a point set that
    is not empty: the first candidate point is accepted, the validity check
    passing on an empty node list, so findMinRoute is never reached with
    N = 0 through generateRandomGraph. *)
Theorem generateRandomGraph_nonempty `{!NumberLaws} rnd
    (this : TSPVisualizer) :
  leb (of_Z 0) (rnd 0%nat) = true → ltb (rnd 0%nat) (of_Z 1) = true →
  ∃ this', generateRandomGraph rnd this = Return this' ∧
    nodes this' ≠ [] ∧
    (1 ≤ length (nodes this'))%nat ∧
    isValidNodePosition [] (candidate (rnd 1%nat) (canvas_width this))
      (candidate (rnd 2%nat) (canvas_height this)) minDistance = true ∧
    nodes this' !! 0%nat =
      Some {| node_x := candidate (rnd 1%nat) (canvas_width this);
              node_y := candidate (rnd 2%nat) (canvas_height this);
              node_id := 0 |}.
Proof.
  intros Hlo Hhi. apply generateRandomGraph_first.
  pose proof (floor_unit (rnd 0%nat) Hlo Hhi) as Hfloor.
  unfold numNodes. lia.
Qed.

End Placement.

(** ** The laws in binary64 arithmetic

    Each law is proved from the specification of the primitive operations
    in [SpecFloat] ([FloatAxioms] relates the two). *)

Section FloatLaws.
#[local] Existing Instance float_number.

Lemma shr_1_nonneg (mrs : shr_record) : 0 ≤ shr_m mrs → 0 ≤ shr_m (shr_1 mrs).
Proof.
  destruct mrs as [m r s]. simpl.
  destruct m as [| [p | p |] | [p | p |]]; simpl; lia.
Qed.

Lemma iter_shr_1_nonneg (p : positive) :
  ∀ mrs, 0 ≤ shr_m mrs → 0 ≤ shr_m (SpecFloat.iter_pos shr_1 p mrs).
Proof.
  induction p as [p IH | p IH |]; intros mrs Hm; simpl.
  - apply IH, IH, shr_1_nonneg, Hm.
  - apply IH, IH, Hm.
  - apply shr_1_nonneg, Hm.
Qed.

Lemma shr_fexp_nonneg (m e : Z) (l : location) :
  0 ≤ m → 0 ≤ shr_m (fst (shr_fexp prec emax m e l)).
Proof.
  intros Hm. unfold shr_fexp, shr.
  assert (0 ≤ shr_m (shr_record_of_loc m l)) as Hrec.
  { destruct l as [| []]; exact Hm. }
  destruct (fexp prec emax (Zdigits2 m + e) - e) as [| p | p]; simpl; auto.
  by apply iter_shr_1_nonneg.
Qed.

Lemma round_nearest_even_nonneg (m : Z) (l : location) :
  0 ≤ m → 0 ≤ round_nearest_even m l.
Proof.
  intros Hm. destruct l as [| []]; simpl; try lia.
  destruct (Z.even m); lia.
Qed.

Lemma binary_round_aux_signed (s : bool) (m e : Z) (l : location) :
  0 ≤ m → sf_signed s (binary_round_aux prec emax s m e l).
Proof.
  intros Hm. unfold binary_round_aux.
  pose proof (shr_fexp_nonneg m e l Hm) as H1.
  destruct (shr_fexp prec emax m e l) as [mrs' e'] eqn:E1. simpl in H1.
  pose proof (shr_fexp_nonneg
                (round_nearest_even (shr_m mrs') (loc_of_shr_record mrs')) e'
                loc_Exact (round_nearest_even_nonneg _ _ H1)) as H2.
  destruct (shr_fexp prec emax _ e' loc_Exact) as [mrs'' e''] eqn:E2.
  simpl in H2.
  destruct (shr_m mrs'') as [| p | p]; simpl; [reflexivity | | lia].
  destruct (e'' <=? emax - prec); reflexivity.
Qed.

Lemma binary_round_signed (s : bool) (m : positive) (e : Z) :
  sf_signed s (binary_round prec emax s m e).
Proof.
  unfold binary_round.
  destruct (shl_align m e _) as [mz ez].
  by apply binary_round_aux_signed.
Qed.

Lemma sf_signed_nonneg (x : spec_float) : sf_signed false x → sf_nonneg x = true.
Proof. destruct x as [s | s | | s m e]; simpl; intros; subst; auto; contradiction. Qed.


(** *** From the primitive operations to their specification *)

Lemma leb_zero_nonneg (x : float) :
  leb (of_Z 0) x = sf_nonneg (Prim2SF x).
Proof.
  cbn [leb float_number of_Z]. rewrite FloatAxioms.leb_spec.
  change (Prim2SF (FloatNumber.of_Z 0)) with (S754_zero false).
  destruct (Prim2SF x) as [s | s | | s m e]; try destruct s; reflexivity.
Qed.

Lemma SFcompare_refl (x : spec_float) :
  x ≠ S754_nan → SFcompare x x = Some Eq.
Proof.
  destruct x as [s | s | | s m e]; intros Hx; simpl; try congruence.
  - by destruct s.
  - rewrite Z.compare_refl, Pos.compare_cont_refl. by destruct s.
Qed.

Lemma SFcompare_antisym (x y : spec_float) :
  SFcompare y x = CompOpp <$> SFcompare x y.
Proof.
  destruct x as [s | s | | s m e], y as [s' | s' | | s' m' e']; simpl;
    try reflexivity; try (by destruct s); try (by destruct s');
    try (by destruct s, s').
  rewrite (Z.compare_antisym e e').
  change (Pos.compare_cont Eq m' m) with (Pos.compare_cont (CompOpp Eq) m' m).
  rewrite <- (Pos.compare_cont_antisym m m' Eq).
  by destruct s, s', (e ?= e'), (Pos.compare_cont Eq m m').
Qed.

Lemma is_finite_SF (x : float) :
  PrimFloat.is_finite x = true →
  match Prim2SF x with
  | S754_zero _ | S754_finite _ _ _ => True
  | _ => False
  end.
Proof.
  unfold PrimFloat.is_finite, PrimFloat.is_nan, PrimFloat.is_infinity.
  rewrite !FloatAxioms.eqb_spec, FloatAxioms.abs_spec.
  change (Prim2SF PrimFloat.infinity) with (S754_infinity false).
  destruct (Prim2SF x) as [s | s | | s m e]; try destruct s; simpl;
    intros Hfin; auto; discriminate.
Qed.

Lemma nonneg_not_nan (x : spec_float) : sf_nonneg x = true → x ≠ S754_nan.
Proof. by destruct x. Qed.

(** *** Multiplication *)

Lemma SFmul_self_nonneg (x : spec_float) :
  x ≠ S754_nan → sf_nonneg (SF64mul x x) = true.
Proof.
  destruct x as [s | s | | s m e]; intros Hx; simpl; try congruence;
    try by destruct s.
  apply sf_signed_nonneg.
  replace (xorb s s) with false by (by destruct s).
  by apply binary_round_aux_signed.
Qed.

Lemma SFmul_finite_nonneg (x : spec_float) (m : positive) (e : Z) :
  sf_nonneg x = true → sf_nonneg (SF64mul x (S754_finite false m e)) = true.
Proof.
  destruct x as [s | s | | s mx ex]; simpl; try discriminate;
    try (by destruct s).
  destruct s; [discriminate |]. intros _.
  apply sf_signed_nonneg. by apply binary_round_aux_signed.
Qed.

(** *** Addition and subtraction *)

Lemma binary_normalize_signed (m e : Z) :
  0 ≤ m → sf_signed false (binary_normalize prec emax m e false).
Proof.
  intros Hm. destruct m as [| p | p]; simpl; [reflexivity | | lia].
  apply binary_round_signed.
Qed.

Lemma binary_normalize_not_nan (m e : Z) :
  binary_normalize prec emax m e false ≠ S754_nan.
Proof.
  destruct m as [| p | p]; simpl; [discriminate | |].
  - pose proof (binary_round_signed false p e) as Hs.
    intros Heq. by rewrite Heq in Hs.
  - pose proof (binary_round_signed true p e) as Hs.
    intros Heq. by rewrite Heq in Hs.
Qed.

Lemma SFadd_nonneg (x y : spec_float) :
  sf_nonneg x = true → sf_nonneg y = true → sf_nonneg (SF64add x y) = true.
Proof.
  destruct x as [s | s | | s m e], y as [s' | s' | | s' m' e']; simpl;
    try discriminate; try (by destruct s, s'); try (by destruct s);
    try (by destruct s').
  destruct s; [discriminate |]. destruct s'; [discriminate |]. intros _ _.
  apply sf_signed_nonneg. simpl. apply binary_round_signed.
Qed.

Lemma SFsub_finite_not_nan (x y : spec_float) :
  match x with S754_zero _ | S754_finite _ _ _ => True | _ => False end →
  match y with S754_zero _ | S754_finite _ _ _ => True | _ => False end →
  SF64sub x y ≠ S754_nan.
Proof.
  destruct x as [s | s | | s m e], y as [s' | s' | | s' m' e']; simpl;
    try contradiction; intros _ _; try discriminate.
  - by destruct s, s'.
  - apply binary_normalize_not_nan.
Qed.

(** *** Square root *)

Lemma SFsqrt_nonneg (x : spec_float) :
  sf_nonneg x = true → sf_nonneg (SF64sqrt x) = true.
Proof.
  destruct x as [s | s | | s m e]; simpl; try discriminate; auto.
  - by destruct s.
  - destruct s; [discriminate |]. intros _.
    unfold SFsqrt_core_binary.
    set (m' := match e - 2 * _ with Z0 => _ | Zpos _ => _ | Zneg _ => _ end).
    assert (0 ≤ m') as Hm'.
    { subst m'. destruct (e - 2 * _) as [| p | p]; try lia.
      apply Z.shiftl_nonneg. lia. }
    pose proof (Z.sqrtrem_spec m' Hm') as Hspec.
    destruct (Z.sqrtrem m') as [q r].
    apply sf_signed_nonneg, binary_round_aux_signed. lia.
Qed.


(** *** Swapping the operands of a subtraction changes the sign only *)

Lemma binary_round_aux_abs (s : bool) (m e : Z) (l : location) :
  SFabs (binary_round_aux prec emax s m e l) =
  SFabs (binary_round_aux prec emax false m e l).
Proof.
  unfold binary_round_aux.
  destruct (shr_fexp prec emax m e l) as [mrs' e'].
  destruct (shr_fexp prec emax _ e' loc_Exact) as [mrs'' e''].
  destruct (shr_m mrs'') as [| p | p]; simpl; try reflexivity.
  by destruct (e'' <=? emax - prec).
Qed.

Lemma binary_normalize_opp_abs (m e : Z) :
  SFabs (binary_normalize prec emax (- m) e false) =
  SFabs (binary_normalize prec emax m e false).
Proof.
  destruct m as [| p | p]; simpl; [reflexivity | |]; unfold binary_round;
    destruct (shl_align p e _) as [mz ez];
    by rewrite (binary_round_aux_abs true).
Qed.

Lemma SFsub_swap_abs (x y : spec_float) :
  SFabs (SF64sub x y) = SFabs (SF64sub y x).
Proof.
  destruct x as [s | s | | s m e], y as [s' | s' | | s' m' e']; simpl;
    try reflexivity; try (by destruct s, s').
  rewrite (Z.min_comm e' e).
  rewrite <- binary_normalize_opp_abs. f_equal. f_equal. lia.
Qed.

Lemma SFmul_self_abs (x y : spec_float) :
  SFabs x = SFabs y → SF64mul x x = SF64mul y y.
Proof.
  destruct x as [s | s | | s m e], y as [s' | s' | | s' m' e']; simpl;
    try discriminate; try reflexivity; intros Heq;
    try (by destruct s, s').
  injection Heq as -> ->. by destruct s, s'.
Qed.

(** *** The order *)

Lemma SFltb_irrefl (x : spec_float) : SFltb x x = false.
Proof.
  unfold SFltb. destruct x as [s | s | | s m e]; try reflexivity;
    by rewrite SFcompare_refl.
Qed.

Lemma SFltb_trans (x y z : spec_float) :
  SFltb x y = true → SFltb y z = true → SFltb x z = true.
Proof.
  unfold SFltb.
  destruct x as [s1 | s1 | | s1 m1 e1], y as [s2 | s2 | | s2 m2 e2],
    z as [s3 | s3 | | s3 m3 e3]; simpl;
    try discriminate; try (by destruct s1, s2, s3);
    try (by destruct s1, s2); try (by destruct s2, s3);
    try (by destruct s1, s3).
  rewrite !Pos.compare_cont_spec. simpl.
  destruct s1, s2, s3; try discriminate; try reflexivity;
    destruct (Z.compare_spec e1 e2), (Z.compare_spec e2 e3),
      (Z.compare_spec e1 e3); try lia; try discriminate; try reflexivity;
    subst;
    destruct (Pos.compare_spec m1 m2), (Pos.compare_spec m2 m3),
      (Pos.compare_spec m1 m3); simpl; try lia; try discriminate;
    try reflexivity.
Qed.

Lemma SF_not_lt_ge (x y : spec_float) :
  x ≠ S754_nan → y ≠ S754_nan → SFltb x y = false → SFleb y x = true.
Proof.
  intros Hx Hy. unfold SFltb, SFleb. rewrite (SFcompare_antisym x y).
  destruct x as [s | s | | s m e], y as [s' | s' | | s' m' e'];
    try congruence; simpl;
    try (by destruct s); try (by destruct s'); try (by destruct s, s').
  by destruct s, s', (e ?= e'), (Pos.compare_cont Eq m m').
Qed.

Lemma SF_lt_le (x y : spec_float) : SFltb x y = true → SFleb x y = true.
Proof. unfold SFltb, SFleb. by destruct (SFcompare x y) as [[] |]. Qed.

Lemma SFleb_refl (x : spec_float) : x ≠ S754_nan → SFleb x x = true.
Proof. intros Hx. unfold SFleb. by rewrite SFcompare_refl. Qed.


Lemma nonneg_is_nan (x : float) :
  sf_nonneg (Prim2SF x) = true → PrimFloat.is_nan x = false.
Proof.
  intros Hx. unfold PrimFloat.is_nan. rewrite FloatAxioms.eqb_spec.
  unfold SFeqb. by rewrite SFcompare_refl by by apply nonneg_not_nan.
Qed.

(** The value of [FloatNumber.min] on two numbers is one of them. *)
Lemma float_min_cases (a c : float) :
  sf_nonneg (Prim2SF a) = true → sf_nonneg (Prim2SF c) = true →
  (FloatNumber.min a c = a ∧ SFleb (Prim2SF a) (Prim2SF c) = true) ∨
  FloatNumber.min a c = c.
Proof.
  intros Ha Hc. unfold FloatNumber.min.
  rewrite (nonneg_is_nan a Ha), (nonneg_is_nan c Hc). simpl.
  rewrite !FloatAxioms.ltb_spec.
  destruct (SFltb (Prim2SF a) (Prim2SF c)) eqn:Hac.
  { left. split; [reflexivity | by apply SF_lt_le]. }
  destruct (SFltb (Prim2SF c) (Prim2SF a)) eqn:Hca; [by right |].
  destruct (get_sign a); [| by right].
  left. split; [reflexivity |].
  apply SF_not_lt_ge; auto using nonneg_not_nan.
Qed.

(** The laws hold of binary64 arithmetic. *)
Lemma float_laws : NumberLaws.
Proof.
  constructor.
  - intros a. cbn. rewrite FloatAxioms.ltb_spec. apply SFltb_irrefl.
  - intros a b c. cbn. rewrite !FloatAxioms.ltb_spec. apply SFltb_trans.
  - intros a b Ha Hb. rewrite leb_zero_nonneg in Ha, Hb. cbn.
    rewrite FloatAxioms.ltb_spec, FloatAxioms.leb_spec.
    apply SF_not_lt_ge; by apply nonneg_not_nan.
  - intros z Hz. rewrite leb_zero_nonneg. cbn [of_Z float_number].
    unfold FloatNumber.of_Z. destruct (Z.ltb_spec z 0) as [Hneg | _]; [lia |].
    rewrite FloatAxioms.of_uint63_spec.
    apply sf_signed_nonneg, binary_normalize_signed, Uint63.to_Z_bounded.
  - intros a b. cbn. apply FloatAxioms.Prim2SF_inj.
    rewrite !FloatAxioms.mul_spec, !FloatAxioms.sub_spec. apply SFmul_self_abs, SFsub_swap_abs.
  - intros a b Ha Hb. rewrite leb_zero_nonneg. cbn.
    rewrite FloatAxioms.mul_spec, FloatAxioms.sub_spec.
    apply SFmul_self_nonneg, SFsub_finite_not_nan; by apply is_finite_SF.
  - intros a b. rewrite !leb_zero_nonneg. cbn. rewrite FloatAxioms.add_spec.
    apply SFadd_nonneg.
  - intros a. rewrite !leb_zero_nonneg. cbn. rewrite FloatAxioms.sqrt_spec.
    apply SFsqrt_nonneg.
  - intros a. rewrite !leb_zero_nonneg. cbn [mul float_number].
    rewrite FloatAxioms.mul_spec.
    assert (∃ m e, Prim2SF lit_0_2 = S754_finite false m e) as (m & e & ->)
      by (vm_compute; eauto).
    apply SFmul_finite_nonneg.
  - intros a c. rewrite !leb_zero_nonneg. intros Ha Hc.
    cbn [min float_number].
    by destruct (float_min_cases a c Ha Hc) as [[-> _] | ->].
  - intros a c. rewrite !leb_zero_nonneg. intros Ha Hc.
    cbn [min leb float_number]. rewrite FloatAxioms.leb_spec.
    destruct (float_min_cases a c Ha Hc) as [[-> Hle] | ->]; [exact Hle |].
    by apply SFleb_refl, nonneg_not_nan.
  - intros a. cbn [leb ltb infinity of_Z float_number].
    rewrite FloatAxioms.leb_spec, FloatAxioms.ltb_spec.
    change (Prim2SF PrimFloat.infinity) with (S754_infinity false).
    assert (∃ m e, Prim2SF (FloatNumber.of_Z 99) = S754_finite false m e)
      as (m & e & ->) by (vm_compute; eauto).
    destruct (Prim2SF a) as [s | s | | s m' e']; try destruct s;
      try discriminate; reflexivity.
  - intros r Hlo _. rewrite leb_zero_nonneg in Hlo.
    cbn [floor mul of_Z float_number]. unfold FloatNumber.floor.
    rewrite FloatAxioms.mul_spec.
    assert (∃ m e, Prim2SF (FloatNumber.of_Z 7) = S754_finite false m e)
      as (m & e & ->) by (vm_compute; eauto).
    pose proof (SFmul_finite_nonneg _ m e Hlo) as Hprod.
    destruct (SF64mul (Prim2SF r) (S754_finite false m e))
      as [s | s | | s m' e']; try lia.
    destruct s; [discriminate |]. simpl. apply Z.shiftl_nonneg. lia.
Qed.

End FloatLaws.

(** ** The statements at the square, in binary64 arithmetic *)

Section Square.
#[local] Existing Instance float_number.

Lemma findMinRoute_is_tour_witness :
  ∃ r, findMinRoute 3 square 0 = Return r ∧
    length (steps r) = 4%nat ∧
    length (finalPath r) = 5%nat ∧
    finalPath r !! 0%nat = Some 0 ∧
    finalPath r !! 4%nat = Some 0 ∧
    ∀ c, 0 ≤ c < 4 → count_occ Z.eq_dec (take 4 (finalPath r)) c = 1%nat.
Proof.
  apply (findMinRoute_is_tour square 0 3).
  - apply distance_matrix_okb_sound. vm_compute. reflexivity.
  - simpl. lia.
  - simpl. lia.
  - simpl. lia.
Defined.

Lemma findMinRoute_totalCost_witness :
  ∃ r, findMinRoute 3 square 0 = Return r ∧ totalCost r = sum_costs (steps r).
Proof.
  apply (findMinRoute_totalCost square 0 3).
  - apply distance_matrix_okb_sound. vm_compute. reflexivity.
  - simpl. lia.
  - simpl. lia.
Defined.

Lemma findMinRoute_trace_witness :
  ∃ r, findMinRoute 3 square 2 = Return r ∧
    (∀ i step, steps r !! i = Some step →
       last (currentPath step) = Some (currentCity step) ∧
       currentPath step = take (S i) (finalPath r)) ∧
    (∃ step0, steps r !! 0%nat = Some step0 ∧ currentCity step0 = 2) ∧
    (∀ i step step', steps r !! i = Some step → steps r !! S i = Some step' →
       currentCity step' = nextCity step).
Proof.
  apply (findMinRoute_trace square 2 3).
  - apply distance_matrix_okb_sound. vm_compute. reflexivity.
  - simpl. lia.
  - simpl. lia.
  - simpl. lia.
Defined.

Lemma findMinRoute_invalid_input_witness :
  findMinRoute 1 square 4 = Throw TypeError.
Proof.
  apply (findMinRoute_invalid_input square 4 1).
  - reflexivity.
  - right. simpl. lia.
  - lia.
Defined.

Lemma findMinRoute_single_point_witness :
  findMinRoute 0 single_point 0 =
  Return {| totalCost := add (of_Z 0) infinity;
            finalPath := [0; 0];
            steps := [ {| currentCity := 0; nextCity := 0;
                          currentPath := [0]; costAdded := Some infinity |} ] |}.
Proof.
  apply (findMinRoute_single_point single_point infinity 0); reflexivity.
Defined.

(** C3 as the specification states it fails on the single point: whatever
    the fuel, the result is not (totalCost = 0, finalPath = [0], no step);
    the code returns the closing step from 0 to 0, of cost Infinity. *)
Lemma findMinRoute_single_point_counterexample :
  findMinRoute 0 single_point 0 =
    Return {| totalCost := infinity;
              finalPath := [0; 0];
              steps := [ {| currentCity := 0; nextCity := 0;
                            currentPath := [0];
                            costAdded := Some infinity |} ] |} ∧
  ¬ ∃ fuel, findMinRoute fuel single_point 0 =
            Return {| totalCost := of_Z 0; finalPath := [0]; steps := [] |}.
Proof.
  split; [reflexivity |].
  intros [fuel Hrun].
  rewrite (findMinRoute_single_point single_point infinity fuel) in Hrun
    by reflexivity.
  discriminate Hrun.
Qed.

(** From city 0 of the square the cities 1 and 3 are both at the minimum
    distance 2; city 1 is selected. *)
Lemma nearest_tie_lowest_index_witness :
  nearest (distanceMatrix square) {[ 0 ]} 0 4 0 infinity (-1)
    = Return (of_Z 2, 1) ∧
  ∃ s', visit_next (distanceMatrix square) 4
          {| rs_totalCost := of_Z 0; rs_currentCity := 0;
             rs_visitedCities := {[ 0 ]}; rs_path := [0];
             rs_steps := [] |} = Return s' ∧
        rs_currentCity s' = 1 ∧ rs_path s' = [0] ++ [1] ∧ 1 ≠ 3.
Proof.
  assert (∀ c : Z, 0 ≤ c < 4 → c = 0 ∨ c = 1 ∨ c = 2 ∨ c = 3) as Hcases
    by lia.
  refine (nearest_tie_lowest_index (distanceMatrix square) {[ 0 ]} 0
            square_row0 4 1 3 (of_Z 2)
            {| rs_totalCost := of_Z 0; rs_currentCity := 0;
               rs_visitedCities := {[ 0 ]}; rs_path := [0];
               rs_steps := [] |} _ _ _ _ _ _ _ _ _ _ _ _).
  - vm_compute. reflexivity.
  - lia.
  - lia.
  - intros Hin. apply elem_of_singleton in Hin. lia.
  - intros Hin. apply elem_of_singleton in Hin. lia.
  - reflexivity.
  - reflexivity.
  - vm_compute. reflexivity.
  - intros c dc Hc Hunv Hrow.
    destruct (Hcases c Hc) as [-> | [-> | [-> | ->]]];
      vm_compute in Hrow; injection Hrow as <-; vm_compute; reflexivity.
  - intros c dc Hc Hunv Hrow. assert (c = 0) as -> by lia.
    exfalso. apply Hunv. by apply elem_of_singleton.
  - reflexivity.
  - reflexivity.
Defined.

Lemma costSoFar_prefix_sum_witness :
  costSoFar square_steps 2 = Return (sum_costs (take 3 square_steps)).
Proof. apply (costSoFar_prefix_sum square_steps 2). simpl. lia. Defined.

Lemma generateRandomGraph_separated_witness :
  ∃ this', generateRandomGraph six_draws (canvas [] []) = Return this' ∧
    length (nodes this') = 6%nat ∧
    numNodes six_draws = 6 ∧
    ∀ i j p q, (i < j)%nat →
      nodes this' !! i = Some p → nodes this' !! j = Some q →
      ltb (euclidean (node_x q) (node_y q) (node_x p) (node_y p)) (of_Z 38)
        = false ∧
      (finite_node p → finite_node q →
       leb (of_Z 38)
           (euclidean (node_x q) (node_y q) (node_x p) (node_y p)) = true).
Proof.
  destruct (@generateRandomGraph_separated float_number float_laws
              six_draws (canvas [] []))
    as (this' & Hrun & Hsep & _).
  assert (length (nodes this') = 6%nat) as Hlen.
  { destruct (generateRandomGraph_nodes six_draws (canvas [] []))
      as [M HM].
    rewrite HM in Hrun. injection Hrun as <-. reflexivity. }
  assert (numNodes six_draws = 6) as Hcount by (vm_compute; reflexivity).
  exists this'. split; [exact Hrun |]. split; [exact Hlen |].
  split; [exact Hcount |]. apply Hsep. rewrite Hlen, Hcount. lia.
Defined.

Lemma calculateDistanceMatrix_spec_witness :
  ∃ M, calculateDistanceMatrix (canvas square_nodes []) =
         Return (canvas square_nodes M) ∧
       square_shape 4 M ∧
       matrix_get M 0 0 = Some infinity ∧
       matrix_get M 0 1 = matrix_get M 1 0 ∧
       (∀ p q, square_nodes !! 0%nat = Some p → square_nodes !! 2%nat = Some q →
          matrix_get M 0 2 = Some (capped_distance lit_0_2 (of_Z 99) p q) ∧
          leb (of_Z 0) (capped_distance lit_0_2 (of_Z 99) p q) = true ∧
          leb (capped_distance lit_0_2 (of_Z 99) p q) (of_Z 99) = true).
Proof.
  destruct (@calculateDistanceMatrix_spec float_number float_laws
              (canvas square_nodes []))
    as (M & Hrun & Hshape & Hdiag & Hsym & Hoff).
  - intros p Hp. repeat (apply elem_of_cons in Hp as [-> | Hp]; [by split |]).
    by apply elem_of_nil in Hp.
  - exists M. split; [exact Hrun |]. split; [exact Hshape |].
    split; [apply Hdiag; simpl; lia |].
    split; [apply Hsym; simpl; lia |].
    intros p q Hp Hq. by apply (Hoff 0%nat 2%nat).
Defined.

Lemma generateRandomGraph_nonempty_witness :
  ∃ this', generateRandomGraph six_draws (canvas [] []) = Return this' ∧
    nodes this' ≠ [] ∧
    (1 ≤ length (nodes this'))%nat ∧
    isValidNodePosition [] (candidate (six_draws 1%nat) (of_Z 800))
      (candidate (six_draws 2%nat) (of_Z 600)) minDistance = true ∧
    nodes this' !! 0%nat =
      Some {| node_x := candidate (six_draws 1%nat) (of_Z 800);
              node_y := candidate (six_draws 2%nat) (of_Z 600);
              node_id := 0 |}.
Proof.
  apply (@generateRandomGraph_nonempty float_number float_laws
           six_draws (canvas [] [])); reflexivity.
Defined.

(** The tour of the square from city 0: 0, 1, 2, 3, 0, of cost
    4 * (10 * 0.2) = 8. *)
Example findMinRoute_square :
  findMinRoute 3 square 0 =
  Return {| totalCost := of_Z 8;
            finalPath := [0; 1; 2; 3; 0];
            steps := square_steps |}.
Proof. reflexivity. Qed.

(** With one unit of fuel less, the loop is still running. *)
Example findMinRoute_square_fuel :
  findMinRoute 2 square 0 = OutOfFuel.
Proof. reflexivity. Qed.

(** Two points whose mutual entries are Infinity: no city is ever chosen
    and the loop does not end. *)
Example findMinRoute_unreachable (fuel : nat) :
  findMinRoute fuel
    (canvas [point 0 0 0; point 10 0 1]
            [[infinity; infinity]; [infinity; infinity]]) 0 = OutOfFuel.
Proof.
  unfold findMinRoute.
  rewrite visit_all_stuck; [reflexivity | reflexivity |].
  cbn [rs_visitedCities]. rewrite size_singleton. simpl. lia.
Qed.

End Square.

(** ** More on the greedy loop: costs, nearest cities, loops without end *)

Section TourMore.
Context `{Number}.
Implicit Types (M : list (list num)) (s : route_state).

(** What one iteration of the loop does: nothing, or one step to an
    unvisited city at the distance the scan returned. *)
Lemma visit_next_detail M (n : nat) s s' (row : list num) :
  js_index M (rs_currentCity s) = Some row →
  visit_next M n s = Return s' →
  s' = s ∨
  ∃ d next,
    nearest M (rs_visitedCities s) (rs_currentCity s) n 0 infinity (-1)
      = Return (d, next) ∧
    (0 ≤ next < Z.of_nat n) ∧ (next ∉ rs_visitedCities s) ∧
    js_index row next = Some d ∧
    s' = {| rs_totalCost := add (rs_totalCost s) d;
            rs_currentCity := next;
            rs_visitedCities := rs_visitedCities s ∪ {[ next ]};
            rs_path := rs_path s ++ [next];
            rs_steps := rs_steps s ++
              [ {| currentCity := rs_currentCity s; nextCity := next;
                   currentPath := rs_path s; costAdded := Some d |} ] |}.
Proof.
  intros Hrow. unfold visit_next.
  destruct (nearest_result M (rs_visitedCities s) (rs_currentCity s) row n
              Hrow 0 infinity (-1)) as (d & next & Hscan & Hres).
  rewrite Hscan. cbn [mbind outcome_bind].
  case_bool_decide as Hnext; intros [= <-]; [| by left].
  right. exists d, next.
  destruct Hres as [[_ ->] | (Hrange & Hunv & Hd)]; [done |].
  split; [reflexivity |]. split; [lia |]. by repeat split.
Qed.

(** The current city of a loop state has a row in a valid matrix. *)
Lemma route_inv_row M (n : nat) (start : Z) s :
  distance_matrix_ok n M → route_inv n start s →
  (0 ≤ rs_currentCity s < Z.of_nat n) ∧ (rs_currentCity s ∈ rs_path s) ∧
  ∃ row, js_index M (rs_currentCity s) = Some row ∧ length row = n.
Proof.
  intros HM Hinv.
  assert (rs_currentCity s ∈ rs_path s) as Hcur.
  { pose proof (ri_last _ _ _ Hinv) as Hlast. rewrite last_lookup in Hlast.
    by eapply list_elem_of_lookup_2. }
  pose proof (ri_range _ _ _ Hinv _ Hcur) as Hrange.
  destruct (lookup_lt_is_Some_2 M (Z.to_nat (rs_currentCity s))) as [row Hrow].
  { rewrite (dm_rows _ _ HM). lia. }
  split; [exact Hrange |]. split; [exact Hcur |].
  exists row. rewrite js_index_nonneg by lia.
  split; [exact Hrow | exact (dm_cols _ _ HM _ _ Hrow)].
Qed.

(** With enough fuel the loop ends in a state with all [n] cities on the
    path, and a property of the recorded steps that every iteration keeps
    holds of it. *)
Lemma visit_all_keeps M (n : nat) (start : Z) (P : route_state → Prop) :
  distance_matrix_ok n M →
  (∀ s s', route_inv n start s → P s → (length (rs_path s) < n)%nat →
           visit_next M n s = Return s' → P s') →
  ∀ fuel s, route_inv n start s → P s →
    (n ≤ length (rs_path s) + fuel)%nat →
    ∃ s', visit_all fuel M n s = Return s' ∧ route_inv n start s' ∧
          length (rs_path s') = n ∧ P s'.
Proof.
  intros HM Hkeep. induction fuel as [| fuel IH]; intros s Hinv HP Hfuel;
    pose proof (path_length_le n _ (ri_nodup _ _ _ Hinv) (ri_range _ _ _ Hinv));
    rewrite visit_all_unfold, (route_inv_size _ _ _ Hinv);
    destruct (Nat.ltb_spec (length (rs_path s)) n) as [Hlt | Hge];
    try lia;
    try (exists s; split; [reflexivity |]; split; [exact Hinv |];
         split; [lia | exact HP]).
  destruct (visit_next_inv M n start s HM Hinv Hlt)
    as (s1 & Hnext & Hinv1 & Hlen1).
  rewrite Hnext. cbn [mbind outcome_bind].
  apply IH; [exact Hinv1 | by apply (Hkeep s s1) | lia].
Qed.

(** The result of [findMinRoute] on a valid matrix, in terms of the state
    in which its loop ends. *)
Lemma findMinRoute_loop_end (this : TSPVisualizer) (start : Z) (fuel : nat)
    (P : route_state → Prop) :
  distance_matrix_ok (length (nodes this)) (distanceMatrix this) →
  0 ≤ start < Z.of_nat (length (nodes this)) →
  (length (nodes this) ≤ S fuel)%nat →
  P (route_start start) →
  (∀ s s', route_inv (length (nodes this)) start s → P s →
           (length (rs_path s) < length (nodes this))%nat →
           visit_next (distanceMatrix this) (length (nodes this)) s
             = Return s' → P s') →
  ∃ s row d,
    route_inv (length (nodes this)) start s ∧
    length (rs_path s) = length (nodes this) ∧ P s ∧
    js_index (distanceMatrix this) (rs_currentCity s) = Some row ∧
    js_index row start = Some d ∧
    findMinRoute fuel this start =
      Return {| totalCost := add (rs_totalCost s) d;
                finalPath := rs_path s ++ [start];
                steps := rs_steps s ++
                  [ {| currentCity := rs_currentCity s; nextCity := start;
                       currentPath := rs_path s; costAdded := Some d |} ] |}.
Proof.
  intros HM Hstart Hfuel Hinit Hkeep.
  destruct (visit_all_keeps (distanceMatrix this) (length (nodes this)) start
              P HM Hkeep fuel (route_start start)
              (route_inv_init _ start Hstart) Hinit)
    as (s & Hloop & Hinv & Hlen & HP); [simpl; lia |].
  destruct (route_inv_row _ _ start s HM Hinv)
    as (_ & _ & row & Hrow & Hrow_len).
  destruct (lookup_lt_is_Some_2 row (Z.to_nat start)) as [d Hd]; [lia |].
  exists s, row, d. split; [exact Hinv |]. split; [exact Hlen |].
  split; [exact HP |]. split; [exact Hrow |]. split.
  - rewrite js_index_nonneg by lia. exact Hd.
  - unfold findMinRoute. fold (route_start start). rewrite Hloop.
    cbn [mbind outcome_bind]. unfold entry. rewrite Hrow.
    cbn [mbind outcome_bind]. rewrite js_index_nonneg by lia. by rewrite Hd.
Qed.

(** In a path of at least two different cities the last is not the first. *)
Lemma last_not_head (path : list Z) (a b : Z) :
  NoDup path → (2 ≤ length path)%nat →
  head path = Some a → last path = Some b → a ≠ b.
Proof.
  intros Hnd Hlen Hhead Hlast ->. rewrite last_lookup in Hlast.
  rewrite head_lookup in Hhead.
  pose proof (NoDup_lookup _ _ _ _ Hnd Hhead Hlast). lia.
Qed.

(** The steps of a tour are priced by the matrix. *)
Lemma findMinRoute_steps_entries (this : TSPVisualizer) (start : Z)
    (fuel : nat) :
  distance_matrix_ok (length (nodes this)) (distanceMatrix this) →
  (2 ≤ length (nodes this))%nat →
  0 ≤ start < Z.of_nat (length (nodes this)) →
  (length (nodes this) ≤ S fuel)%nat →
  ∃ r, findMinRoute fuel this start = Return r ∧
    ∀ step, step ∈ steps r →
      step_cost_entry (distanceMatrix this) (length (nodes this)) step.
Proof.
  intros HM Hn Hstart Hfuel.
  set (n := length (nodes this)) in *. set (M := distanceMatrix this) in *.
  destruct (findMinRoute_loop_end this start fuel
              (fun s => ∀ step, step ∈ rs_steps s → step_cost_entry M n step)
              HM Hstart Hfuel)
    as (s & row & d & Hinv & Hlen & HP & Hrow & Hd & Hrun).
  { intros step Hin. by apply elem_of_nil in Hin. }
  { intros s0 s1 Hinv0 HP0 Hlt Hnext.
    destruct (route_inv_row M n start s0 HM Hinv0)
      as (Hcur_range & Hcur_in & row & Hrow & _).
    destruct (visit_next_detail M n s0 s1 row Hrow Hnext)
      as [-> | (d & next & _ & Hnext_range & Hunv & Hd & ->)]; [exact HP0 |].
    cbn [rs_steps]. intros step Hin.
    apply elem_of_app in Hin as [Hin | Hin]; [by apply HP0 |].
    apply list_elem_of_singleton in Hin as ->.
    split; [exact Hcur_range |]. split; [exact Hnext_range |]. split.
    - cbn. intros Heq. apply Hunv. rewrite (ri_visited _ _ _ Hinv0).
      rewrite elem_of_list_to_set. by rewrite <- Heq.
    - exists d. unfold edge_cost. cbn. rewrite Hrow. by split. }
  eexists. split; [exact Hrun |]. cbn [steps]. intros step Hin.
  apply elem_of_app in Hin as [Hin | Hin]; [by apply HP |].
  apply list_elem_of_singleton in Hin as ->.
  destruct (route_inv_row M n start s HM Hinv) as (Hcur_range & _).
  split; [exact Hcur_range |]. split; [exact Hstart |]. split.
  - cbn. intros Heq. symmetry in Heq. revert Heq.
    apply (last_not_head (rs_path s));
      [exact (ri_nodup _ _ _ Hinv) | lia | exact (ri_head _ _ _ Hinv)
      | exact (ri_last _ _ _ Hinv)].
  - exists d. unfold edge_cost. cbn [currentCity nextCity costAdded].
    subst M. rewrite Hrow. by split.
Qed.

(** X1.  On a valid matrix with N >= 2, every step of the result goes
    between two different cities of 0 .. N-1 and its costAdded is the entry
    distanceMatrix[currentCity][nextCity]. *)
Theorem findMinRoute_step_costs (this : TSPVisualizer) (start : Z)
    (fuel : nat) :
  distance_matrix_ok (length (nodes this)) (distanceMatrix this) →
  (2 ≤ length (nodes this))%nat →
  0 ≤ start < Z.of_nat (length (nodes this)) →
  (length (nodes this) ≤ S fuel)%nat →
  ∃ r, findMinRoute fuel this start = Return r ∧
    ∀ step, step ∈ steps r →
      step_cost_entry (distanceMatrix this) (length (nodes this)) step.
Proof. apply findMinRoute_steps_entries. Qed.

(** Under the laws of a strict order the scan returns a minimum: no
    unvisited city of its range has an entry below the distance returned. *)
Lemma nearest_minimal `{!NumberLaws} M (visited : gset Z) (cur : Z)
    (row : list num) (k : nat) :
  js_index M cur = Some row →
  ∀ j m nx m' nx',
    nearest M visited cur k j m nx = Return (m', nx') →
    (m' = m ∨ ltb m' m = true) ∧
    ∀ c dc, j ≤ c < j + Z.of_nat k → c ∉ visited →
            js_index row c = Some dc → ltb dc m' = false.
Proof.
  intros Hrow. induction k as [| k IH]; intros j m nx m' nx' Hrun.
  { injection Hrun as <- <-. split; [by left | intros; lia]. }
  cbn [nearest] in Hrun.
  assert (∀ m0 nx0, nearest M visited cur k (j + 1) m0 nx0 = Return (m', nx') →
            (js_index row j = None ∨ j ∈ visited ∨
             ∃ dj, js_index row j = Some dj ∧ ltb dj m0 = false) →
            (m' = m0 ∨ ltb m' m0 = true) ∧
            ∀ c dc, j ≤ c < j + Z.of_nat (S k) → c ∉ visited →
                    js_index row c = Some dc → ltb dc m' = false) as Hstep.
  { intros m0 nx0 Hrest Hj.
    destruct (IH (j + 1) m0 nx0 m' nx' Hrest) as [Hle Hmin].
    split; [exact Hle |]. intros c dc Hc Hunv Hdc.
    destruct (decide (c = j)) as [-> | Hne];
      [| apply (Hmin c dc); [lia | exact Hunv | exact Hdc]].
    destruct Hj as [Hnone | [Hvis | (dj & Hdj & Hlt)]];
      [congruence | contradiction |].
    assert (dj = dc) as -> by congruence.
    destruct Hle as [-> | Hlt']; [exact Hlt |].
    destruct (ltb dc m') eqn:Hcontra; [| reflexivity].
    rewrite (ltb_trans dc m' m0 Hcontra Hlt') in Hlt. discriminate. }
  case_bool_decide as Hvis; [by eapply Hstep; eauto |].
  unfold entry in Hrun. rewrite Hrow in Hrun.
  cbn [mbind outcome_bind] in Hrun.
  destruct (js_index row j) as [dj |] eqn:Hdj; [| by eapply Hstep; eauto].
  destruct (ltb dj m) eqn:Hlt; [| by eapply Hstep; eauto 6].
  destruct (Hstep dj j Hrun) as [Hle Hmin].
  { right. right. exists dj. split; [reflexivity | apply ltb_irrefl]. }
  split; [| exact Hmin]. right.
  destruct Hle as [-> | Hlt']; [exact Hlt | by apply (ltb_trans m' dj m)].
Qed.

(** X2.  The greedy choice: on a valid matrix, every step but the closing
    one goes to a nearest city, that is, no city outside the path so far has
    an entry from the current city below the cost of the step. *)
Theorem findMinRoute_steps_nearest `{!NumberLaws} (this : TSPVisualizer)
    (start : Z) (fuel : nat) :
  distance_matrix_ok (length (nodes this)) (distanceMatrix this) →
  0 ≤ start < Z.of_nat (length (nodes this)) →
  (length (nodes this) ≤ S fuel)%nat →
  ∃ r, findMinRoute fuel this start = Return r ∧
    ∀ i step, (S i < length (steps r))%nat → steps r !! i = Some step →
      step_nearest (distanceMatrix this) (length (nodes this)) step.
Proof.
  intros HM Hstart Hfuel.
  set (n := length (nodes this)) in *. set (M := distanceMatrix this) in *.
  destruct (findMinRoute_loop_end this start fuel
              (fun s => ∀ step, step ∈ rs_steps s → step_nearest M n step)
              HM Hstart Hfuel)
    as (s & row & d & Hinv & Hlen & HP & Hrow & Hd & Hrun).
  { intros step Hin. by apply elem_of_nil in Hin. }
  { intros s0 s1 Hinv0 HP0 Hlt Hnext.
    destruct (route_inv_row M n start s0 HM Hinv0)
      as (Hcur_range & Hcur_in & row & Hrow & _).
    destruct (visit_next_detail M n s0 s1 row Hrow Hnext)
      as [-> | (d & next & Hscan & _ & _ & _ & ->)]; [exact HP0 |].
    cbn [rs_steps]. intros step Hin.
    apply elem_of_app in Hin as [Hin | Hin]; [by apply HP0 |].
    apply list_elem_of_singleton in Hin as ->.
    intros c dc d' Hc Hout Hdc [= <-]. cbn in Hout, Hdc.
    unfold edge_cost in Hdc. rewrite Hrow in Hdc. cbn in Hdc.
    destruct (nearest_minimal M _ _ row n Hrow 0 infinity (-1) d next Hscan)
      as [_ Hmin].
    apply (Hmin c dc); [lia | | exact Hdc].
    rewrite (ri_visited _ _ _ Hinv0). by rewrite elem_of_list_to_set. }
  eexists. split; [exact Hrun |]. cbn [steps]. intros i step Hi Hstep.
  rewrite length_app in Hi. cbn in Hi.
  rewrite lookup_app_l in Hstep by lia.
  apply HP. by eapply list_elem_of_lookup_2.
Qed.

Lemma path_cost_snoc M (path : list Z) (a b : Z) :
  last path = Some a →
  path_cost M (path ++ [b]) =
  add (path_cost M path) (to_number (edge_cost M a b)).
Proof.
  intros Hlast. unfold path_cost.
  assert (zip (path ++ [b]) (tail (path ++ [b])) =
          zip path (tail path) ++ [(a, b)]) as ->.
  { induction path as [| x path IH]; [discriminate |].
    destruct path as [| y path].
    - cbn in Hlast. by injection Hlast as ->.
    - cbn [app tail zip zip_with] in *. f_equal. apply IH, Hlast. }
  by rewrite fold_left_app.
Qed.

(** X3.  On a valid matrix the total cost returned is the cost of the final
    path in the matrix: the entries for the consecutive pairs of cities of
    finalPath, added up from 0 in path order. *)
Theorem findMinRoute_totalCost_of_path (this : TSPVisualizer) (start : Z)
    (fuel : nat) :
  distance_matrix_ok (length (nodes this)) (distanceMatrix this) →
  0 ≤ start < Z.of_nat (length (nodes this)) →
  (length (nodes this) ≤ S fuel)%nat →
  ∃ r, findMinRoute fuel this start = Return r ∧
       totalCost r = path_cost (distanceMatrix this) (finalPath r).
Proof.
  intros HM Hstart Hfuel.
  set (n := length (nodes this)) in *. set (M := distanceMatrix this) in *.
  destruct (findMinRoute_loop_end this start fuel
              (fun s => rs_totalCost s = path_cost M (rs_path s))
              HM Hstart Hfuel)
    as (s & row & d & Hinv & Hlen & HP & Hrow & Hd & Hrun).
  { reflexivity. }
  { intros s0 s1 Hinv0 HP0 Hlt Hnext.
    destruct (route_inv_row M n start s0 HM Hinv0)
      as (_ & _ & row & Hrow & _).
    destruct (visit_next_detail M n s0 s1 row Hrow Hnext)
      as [-> | (d & next & _ & _ & _ & Hd & ->)]; [exact HP0 |].
    cbn [rs_totalCost rs_path].
    rewrite (path_cost_snoc M _ _ next (ri_last _ _ _ Hinv0)), HP0.
    unfold edge_cost. rewrite Hrow. cbn. by rewrite Hd. }
  eexists. split; [exact Hrun |]. cbn [totalCost finalPath].
  rewrite (path_cost_snoc M _ _ start (ri_last _ _ _ Hinv)), HP.
  unfold edge_cost. subst M. rewrite Hrow. cbn. by rewrite Hd.
Qed.

(** When no unvisited city has an entry below Infinity the scan chooses
    none. *)
Lemma nearest_none M (visited : gset Z) (cur : Z) (row : list num) (k : nat) :
  js_index M cur = Some row →
  ∀ j,
    (∀ c dc, j ≤ c < j + Z.of_nat k → c ∉ visited →
             js_index row c = Some dc → ltb dc infinity = false) →
    nearest M visited cur k j infinity (-1) = Return (infinity, -1).
Proof.
  intros Hrow. induction k as [| k IH]; intros j Hnone; [reflexivity |].
  cbn [nearest].
  assert (nearest M visited cur k (j + 1) infinity (-1)
          = Return (infinity, -1)) as Hrest.
  { apply IH. intros c dc Hc. apply Hnone. lia. }
  case_bool_decide as Hvis; [exact Hrest |].
  unfold entry. rewrite Hrow. cbn [mbind outcome_bind].
  destruct (js_index row j) as [dj |] eqn:Hdj; [| exact Hrest].
  rewrite (Hnone j dj) by (auto; lia). exact Hrest.
Qed.

(** X4.  With at least two points, if no other city has an entry below
    Infinity in the row of the start city (the entries are Infinity, NaN or
    missing), findMinRoute never returns: its loop chooses no city and
    repeats for ever. *)
Theorem findMinRoute_never_returns (this : TSPVisualizer) (start : Z)
    (row : list num) :
  (2 ≤ length (nodes this))%nat →
  js_index (distanceMatrix this) start = Some row →
  (∀ c dc, 0 ≤ c < Z.of_nat (length (nodes this)) → c ≠ start →
           js_index row c = Some dc → ltb dc infinity = false) →
  ∀ fuel, findMinRoute fuel this start = OutOfFuel.
Proof.
  intros Hn Hrow Hnone fuel. unfold findMinRoute.
  rewrite visit_all_stuck; [reflexivity | |].
  - unfold visit_next. cbn [rs_visitedCities rs_currentCity].
    rewrite (nearest_none _ _ _ row); [reflexivity | exact Hrow |].
    intros c dc Hc Hunv. apply Hnone; [lia |].
    intros ->. apply Hunv. by apply elem_of_singleton.
  - cbn [rs_visitedCities]. rewrite size_singleton. lia.
Qed.

End TourMore.

(** ** From the points to the tour, and the generated graph *)

Section Generated.
Context `{Number}.
Implicit Types (placed : list Node) (rnd : nat → num).

Lemma sum_costs_nonneg `{!NumberLaws} (l : list TourStep) :
  (∀ step, step ∈ l → leb (of_Z 0) (to_number (costAdded step)) = true) →
  leb (of_Z 0) (sum_costs l) = true.
Proof.
  unfold sum_costs. intros Hall.
  assert (leb (of_Z 0) (of_Z 0) = true) as Hzero by (apply of_Z_nonneg; lia).
  revert Hzero. generalize (of_Z 0) at 2 4 as acc. revert Hall.
  induction l as [| step l IH]; intros Hall acc Hacc; [exact Hacc |].
  cbn [fold_left]. apply IH.
  - intros step' Hin. apply Hall. by apply list_elem_of_further.
  - apply add_nonneg; [exact Hacc | apply Hall, list_elem_of_here].
Qed.

(** X5.  From the points to the tour: for at least two points with real
    coordinates, on the matrix calculateDistanceMatrix computes findMinRoute
    returns from every start, each step costs the capped, scaled distance
    between the two points it joins, a number of [0, 99], and the total cost
    is a number >= 0 (never NaN). *)
Theorem findMinRoute_on_points `{!NumberLaws} (this : TSPVisualizer)
    (start : Z) (fuel : nat) :
  (∀ p, p ∈ nodes this → finite_node p) →
  (2 ≤ length (nodes this))%nat →
  0 ≤ start < Z.of_nat (length (nodes this)) →
  (length (nodes this) ≤ S fuel)%nat →
  ∃ this' r,
    calculateDistanceMatrix this = Return this' ∧
    findMinRoute fuel this' start = Return r ∧
    (∀ step, step ∈ steps r →
       ∃ p q, js_index (nodes this) (currentCity step) = Some p ∧
              js_index (nodes this) (nextCity step) = Some q ∧
              costAdded step = Some (capped_distance lit_0_2 (of_Z 99) p q) ∧
              leb (of_Z 0) (capped_distance lit_0_2 (of_Z 99) p q) = true ∧
              leb (capped_distance lit_0_2 (of_Z 99) p q) (of_Z 99) = true) ∧
    leb (of_Z 0) (totalCost r) = true.
Proof.
  intros Hfinite Hn Hstart Hfuel.
  destruct (calculateDistanceMatrix_entries this Hfinite)
    as (M & Hcalc & _ & _ & _ & Hoff).
  destruct (calculateDistanceMatrix_ok this Hfinite)
    as (this' & Hcalc' & Hnodes & HM).
  assert (distanceMatrix this' = M) as HMeq.
  { rewrite Hcalc in Hcalc'. by injection Hcalc' as <-. }
  rewrite <- Hnodes in Hn, Hstart, Hfuel.
  destruct (findMinRoute_steps_entries this' start fuel HM Hn Hstart Hfuel)
    as (r & Hrun & Hsteps).
  destruct (findMinRoute_valid this' start fuel HM Hstart Hfuel)
    as (r' & _ & Hrun' & _ & _ & _ & _ & _ & _ & Hcost & _).
  rewrite Hrun in Hrun'. injection Hrun' as <-.
  rewrite Hnodes, HMeq in Hsteps.
  assert (∀ step, step ∈ steps r →
            ∃ p q, js_index (nodes this) (currentCity step) = Some p ∧
              js_index (nodes this) (nextCity step) = Some q ∧
              costAdded step = Some (capped_distance lit_0_2 (of_Z 99) p q) ∧
              leb (of_Z 0) (capped_distance lit_0_2 (of_Z 99) p q) = true ∧
              leb (capped_distance lit_0_2 (of_Z 99) p q) (of_Z 99) = true)
    as Hall.
  { intros step Hin.
    destruct (Hsteps step Hin) as (Hcur & Hnext & Hne & d & Hd & Hadded).
    destruct (lookup_lt_is_Some_2 (nodes this) (Z.to_nat (currentCity step)))
      as [p Hp]; [lia |].
    destruct (lookup_lt_is_Some_2 (nodes this) (Z.to_nat (nextCity step)))
      as [q Hq]; [lia |].
    destruct (Hoff _ _ p q Hp Hq) as (Hget & Hlo & Hhi); [lia |].
    exists p, q. rewrite !js_index_nonneg by lia.
    split; [exact Hp |]. split; [exact Hq |].
    split; [| by split].
    unfold edge_cost in Hd. rewrite js_index_nonneg in Hd by lia.
    unfold matrix_get in Hget. rewrite Hadded.
    destruct (M !! Z.to_nat (currentCity step)) as [row |];
      [| discriminate].
    cbn in Hd, Hget. rewrite js_index_nonneg in Hd by lia. congruence. }
  exists this', r. split; [exact Hcalc' |]. split; [exact Hrun |].
  split; [exact Hall |]. rewrite Hcost. apply sum_costs_nonneg.
  intros step Hin. destruct (Hall step Hin) as (p & q & _ & _ & -> & Hlo & _).
  exact Hlo.
Qed.

(** What an attempts loop that gives up has tried. *)
Lemma find_position_none rnd (w h : num) placed (a : nat) :
  ∀ c c', find_position rnd w h placed a c = (None, c') →
    c' = (c + 2 * a)%nat ∧
    ∀ t, (t < a)%nat →
      isValidNodePosition placed (candidate (rnd (c + 2 * t)%nat) w)
        (candidate (rnd (S (c + 2 * t))) h) minDistance = false.
Proof.
  induction a as [| a IH]; intros c c'; cbn [find_position].
  { intros [= <-]. split; [lia | intros; lia]. }
  destruct (isValidNodePosition placed (candidate (rnd c) w)
              (candidate (rnd (S c)) h) minDistance) eqn:Hvalid;
    [discriminate |].
  intros Hrest. destruct (IH _ _ Hrest) as [-> Htried].
  split; [lia |]. intros t Ht. destruct t as [| t].
  - by rewrite Nat.add_0_r.
  - replace (c + 2 * S t)%nat with (S (S c) + 2 * t)%nat by lia.
    apply Htried. lia.
Qed.

(** The placement loop numbers the points by their index, places at most
    [k] of them, and stops early only after [maxAttempts] candidates in a row
    failed the validity check against the points it returns. *)
Lemma place_nodes_shape rnd (w h : num) (k : nat) :
  ∀ i c placed,
    i = Z.of_nat (length placed) →
    (∀ j node, placed !! j = Some node → node_id node = Z.of_nat j) →
    let result := place_nodes rnd w h k i c placed in
    (∀ j node, result !! j = Some node → node_id node = Z.of_nat j) ∧
    (length result ≤ length placed + k)%nat ∧
    ((length result < length placed + k)%nat →
     ∃ c', ∀ t, (t < maxAttempts)%nat →
       isValidNodePosition result (candidate (rnd (c' + 2 * t)%nat) w)
         (candidate (rnd (S (c' + 2 * t))) h) minDistance = false).
Proof.
  induction k as [| k IH]; intros i c placed Hi Hids; cbn [place_nodes].
  { split; [exact Hids |]. split; lia. }
  destruct (find_position rnd w h placed maxAttempts c)
    as [[[x y] |] c'] eqn:Hfind.
  - destruct (IH (i + 1) c'
                (placed ++ [ {| node_x := x; node_y := y; node_id := i |} ]))
      as (Hids' & Hlen & Hstop).
    { rewrite length_app. cbn. lia. }
    { intros j node Hj.
      destruct (decide (j < length placed)%nat) as [Hold | Hnew].
      - rewrite lookup_app_l in Hj by exact Hold. by apply Hids.
      - assert (j = length placed) as ->.
        { apply lookup_lt_Some in Hj. rewrite length_app in Hj.
          cbn in Hj. lia. }
        rewrite list_lookup_middle in Hj by reflexivity.
        injection Hj as <-. exact Hi. }
    rewrite length_app in Hlen, Hstop. cbn [length] in Hlen, Hstop.
    split; [exact Hids' |]. split; [lia |].
    intros Hshort. apply Hstop. lia.
  - split; [exact Hids |]. split; [lia |]. intros _.
    destruct (find_position_none _ _ _ _ _ _ _ Hfind) as [_ Htried].
    by exists c.
Qed.

(** X7.  generateRandomGraph returns fewer than numNodes points only after
    100 candidate positions in a row failed the validity check against the
    points it returns. *)
Theorem generateRandomGraph_truncated rnd (this this' : TSPVisualizer) :
  generateRandomGraph rnd this = Return this' →
  (length (nodes this') < Z.to_nat (numNodes rnd))%nat →
  ∃ c, ∀ t, (t < 100)%nat →
    isValidNodePosition (nodes this')
      (candidate (rnd (c + 2 * t)%nat) (canvas_width this))
      (candidate (rnd (S (c + 2 * t))) (canvas_height this)) (of_Z 38)
    = false.
Proof.
  destruct (generateRandomGraph_nodes rnd this) as [M Hrun].
  rewrite Hrun. intros [= <-]. cbn [nodes]. intros Hshort.
  destruct (place_nodes_shape rnd (canvas_width this) (canvas_height this)
              (Z.to_nat (numNodes rnd)) 0 1%nat [])
    as (_ & _ & Hstop); [reflexivity | |].
  { intros j node Hj. by rewrite lookup_nil in Hj. }
  apply Hstop. cbn [length]. lia.
Qed.

(** X8.  Every graph generateRandomGraph returns with points of real
    coordinates has a tour from each of its points: findMinRoute returns,
    with as many steps as there are points and a path one longer, on the
    matrix that generateRandomGraph stored. *)
Theorem generateRandomGraph_tour `{!NumberLaws} rnd
    (this this' : TSPVisualizer) (start : Z) (fuel : nat) :
  generateRandomGraph rnd this = Return this' →
  (∀ p, p ∈ nodes this' → finite_node p) →
  0 ≤ start < Z.of_nat (length (nodes this')) →
  (length (nodes this') ≤ S fuel)%nat →
  distance_matrix_ok (length (nodes this')) (distanceMatrix this') ∧
  ∃ r, findMinRoute fuel this' start = Return r ∧
       length (steps r) = length (nodes this') ∧
       length (finalPath r) = S (length (nodes this')) ∧
       head (finalPath r) = Some start ∧
       last (finalPath r) = Some start.
Proof.
  unfold generateRandomGraph. intros Hrun Hfinite Hstart Hfuel.
  match type of Hrun with
  | calculateDistanceMatrix ?t = _ =>
      destruct (calculateDistanceMatrix_ok t) as (this'' & Hcalc & Hnodes & HM)
  end.
  { cbn [nodes]. intros p Hp. apply Hfinite.
    match type of Hrun with
    | calculateDistanceMatrix ?t = _ =>
        destruct (calculateDistanceMatrix_cells t) as (M & HM & _)
    end.
    rewrite HM in Hrun. injection Hrun as <-. exact Hp. }
  rewrite Hcalc in Hrun. injection Hrun as ->.
  split; [exact HM |].
  destruct (findMinRoute_valid this' start fuel HM Hstart Hfuel)
    as (r & path & Hrun & Hfinal & Hlen & _ & _ & Hhead & Hsteps & _).
  exists r. split; [exact Hrun |]. split; [exact Hsteps |]. rewrite Hfinal.
  split; [rewrite length_app; cbn; lia |].
  split; [| by rewrite last_snoc].
  destruct path as [| a path]; [discriminate | exact Hhead].
Qed.

(** X17.  isValidNodePosition rejects a position exactly when some point
    already placed tests closer to it than minDistance (a comparison with
    NaN is no such test: it is false). *)
Theorem isValidNodePosition_rejects placed (x y md : num) :
  isValidNodePosition placed x y md = false ↔
  ∃ p, p ∈ placed ∧ ltb (euclidean x y (node_x p) (node_y p)) md = true.
Proof.
  induction placed as [| q placed IH]; cbn [isValidNodePosition].
  - split; [discriminate |]. intros (p & Hp & _). by apply elem_of_nil in Hp.
  - destruct (ltb (euclidean x y (node_x q) (node_y q)) md) eqn:Hlt.
    + split; [| done]. intros _. exists q. split; [apply list_elem_of_here | done].
    + rewrite IH. split; intros (p & Hp & Hclose).
      * exists p. split; [by apply list_elem_of_further | done].
      * apply elem_of_cons in Hp as [-> | Hp]; [congruence | by exists p].
Qed.

End Generated.

(** ** Drawing *)

Section Drawing.
Context `{Rounding}.

Lemma draw_edges_from_edges (this : TSPVisualizer) (i : nat)
    (row : list num) :
  (i < length (nodes this))%nat →
  distanceMatrix this !! i = Some row →
  ∀ k j, (j + k ≤ length (nodes this))%nat →
    draw_edges_from this i k j =
    Return (flat_map (edge_drawn this i) (seq j k)).
Proof.
  intros Hi Hrow.
  destruct (lookup_lt_is_Some_2 (nodes this) i Hi) as [node1 Hnode1].
  induction k as [| k IH]; intros j Hj; [reflexivity |].
  destruct (lookup_lt_is_Some_2 (nodes this) j) as [node2 Hnode2]; [lia |].
  cbn [draw_edges_from seq flat_map]. rewrite Hnode1, Hnode2, IH by lia.
  unfold edge_drawn at 2. rewrite Hnode1, Hnode2.
  unfold entry, edge_cost. rewrite !js_index_nonneg by lia.
  rewrite !Nat2Z.id, Hrow. reflexivity.
Qed.

Lemma draw_edges_edges (this : TSPVisualizer) :
  (length (nodes this) ≤ length (distanceMatrix this))%nat →
  ∀ k i, (i + k = length (nodes this))%nat →
    draw_edges this (length (nodes this)) k i =
    Return (flat_map
              (fun i => flat_map (edge_drawn this i)
                          (seq (S i) (length (nodes this) - S i)))
              (seq i k)).
Proof.
  intros Hrows. induction k as [| k IH]; intros i Hi; [reflexivity |].
  destruct (lookup_lt_is_Some_2 (distanceMatrix this) i) as [row Hrow];
    [lia |].
  cbn [draw_edges seq flat_map].
  rewrite (draw_edges_from_edges this i row) by (auto; lia).
  rewrite IH by lia. reflexivity.
Qed.

Lemma edge_drawn_length (this : TSPVisualizer) (i j : nat) :
  (i < length (nodes this))%nat → (j < length (nodes this))%nat →
  length (edge_drawn this i j) = 2%nat.
Proof.
  intros Hi Hj. unfold edge_drawn.
  destruct (lookup_lt_is_Some_2 (nodes this) i Hi) as [node1 ->].
  by destruct (lookup_lt_is_Some_2 (nodes this) j Hj) as [node2 ->].
Qed.

Lemma graph_edges_length (this : TSPVisualizer) :
  length (graph_edges this) =
  (length (nodes this) * (length (nodes this) - 1))%nat.
Proof.
  unfold graph_edges. set (n := length (nodes this)).
  assert (∀ k i, (i + k = n)%nat →
            length (flat_map
                      (fun i => flat_map (edge_drawn this i)
                                  (seq (S i) (n - S i)))
                      (seq i k)) = (k * (k - 1))%nat) as Hsum.
  { induction k as [| k IH]; intros i Hi; [reflexivity |].
    cbn [seq flat_map]. rewrite length_app, IH by lia.
    rewrite flat_map_constant_length with (c := 2%nat).
    - rewrite length_seq. nia.
    - intros j Hj. apply in_seq in Hj. apply edge_drawn_length; lia. }
  apply Hsum. lia.
Qed.

Lemma drawGraph_returns (this : TSPVisualizer) :
  (length (nodes this) ≤ length (distanceMatrix this))%nat →
  drawGraph this = Return (graph_edges this ++ map Dot (nodes this)).
Proof.
  intros Hrows. unfold drawGraph.
  by rewrite draw_edges_edges by (auto; lia).
Qed.

(** X9.  With a matrix of at least N rows, drawGraph returns; it draws, for
    every pair of indices i < j in the order of i and then j, the line
    between the two nodes and the rounded entry M[i][j], N(N-1)/2 lines and
    as many labels in all, and after them the N nodes in order. *)
Theorem drawGraph_edges (this : TSPVisualizer) :
  (length (nodes this) ≤ length (distanceMatrix this))%nat →
  drawGraph this = Return (graph_edges this ++ map Dot (nodes this)) ∧
  length (graph_edges this) =
    (length (nodes this) * (length (nodes this) - 1))%nat.
Proof.
  intros Hrows. split; [by apply drawGraph_returns | apply graph_edges_length].
Qed.

Lemma draw_edges_from_fuel (this : TSPVisualizer) (i k : nat) :
  ∀ j, draw_edges_from this i k j ≠ OutOfFuel.
Proof.
  induction k as [| k IH]; intros j; cbn [draw_edges_from]; [discriminate |].
  destruct (nodes this !! i); [| discriminate].
  destruct (nodes this !! j); [| discriminate].
  unfold entry. destruct (js_index (distanceMatrix this) (Z.of_nat i));
    [| discriminate].
  cbn. specialize (IH (S j)).
  by destruct (draw_edges_from this i k (S j)).
Qed.

Lemma drawGraph_fuel (this : TSPVisualizer) : drawGraph this ≠ OutOfFuel.
Proof.
  unfold drawGraph.
  assert (∀ k i, draw_edges this (length (nodes this)) k i ≠ OutOfFuel)
    as Hloop.
  { induction k as [| k IH]; intros i; cbn [draw_edges]; [discriminate |].
    pose proof (draw_edges_from_fuel this i
                  (length (nodes this) - S i) (S i)) as Hrow.
    destruct (draw_edges_from this i _ (S i)); try done.
    cbn. specialize (IH (S i)).
    by destruct (draw_edges this (length (nodes this)) k (S i)). }
  specialize (Hloop (length (nodes this)) 0%nat).
  by destruct (draw_edges this _ _ 0).
Qed.

(** X10.  Asked for a step index at or past the end of steps,
    drawAnimationStep throws a TypeError: where it returns, the index is
    inside steps, so the test of line 326 is never false when it is
    reached. *)
Theorem drawAnimationStep_past_end (this : TSPVisualizer)
    (steps : list TourStep) (currentStep : nat) :
  (length steps ≤ currentStep)%nat →
  drawAnimationStep this steps currentStep = Throw TypeError.
Proof.
  intros Hpast. unfold drawAnimationStep.
  rewrite (lookup_ge_None_2 steps currentStep Hpast).
  pose proof (drawGraph_fuel this) as Hfuel.
  destruct (drawGraph this) as [graph | [] |]; done.
Qed.

Lemma draw_path_segments (ns : list Node) (path : list Z) :
  (∀ c, c ∈ path → 0 ≤ c < Z.of_nat (length ns)) →
  ∀ k i, (i + k ≤ length path - 1)%nat →
    draw_path ns path k i = Return (flat_map (segment_drawn ns path) (seq i k)) ∧
    length (flat_map (segment_drawn ns path) (seq i k)) = k.
Proof.
  intros Hrange.
  assert (∀ i, (i < length path)%nat →
            ∃ c node, path !! i = Some c ∧ js_index ns c = Some node)
    as Hnode.
  { intros i Hi. destruct (lookup_lt_is_Some_2 path i Hi) as [c Hc].
    pose proof (Hrange c (list_elem_of_lookup_2 _ _ _ Hc)) as Hcr.
    destruct (lookup_lt_is_Some_2 ns (Z.to_nat c)) as [node Hn]; [lia |].
    exists c, node. by rewrite js_index_nonneg by lia. }
  induction k as [| k IH]; intros i Hi; [done |].
  destruct (Hnode i) as (c1 & node1 & Hc1 & Hn1); [lia |].
  destruct (Hnode (S i)) as (c2 & node2 & Hc2 & Hn2); [lia |].
  destruct (IH (S i)) as [Hrest Hlen]; [lia |].
  assert (segment_drawn ns path i = [Segment node1 node2]) as Hseg.
  { unfold segment_drawn. rewrite Hc1, Hc2. cbn. by rewrite Hn1, Hn2. }
  cbn [draw_path seq flat_map]. rewrite Hc1, Hc2, Hrest, Hseg.
  cbn. by rewrite Hn1, Hn2, Hlen.
Qed.

Lemma tour_segments_take (ns : list Node) (path : list Z) (k : nat) :
  tour_segments ns (take (S k) path) k = tour_segments ns path k.
Proof.
  unfold tour_segments. rewrite !flat_map_concat_map. f_equal.
  apply map_ext_in. intros i Hi.
  apply in_seq in Hi. unfold segment_drawn.
  rewrite !lookup_take. by rewrite !decide_True by lia.
Qed.

(** The frames of a tour. *)
Lemma drawAnimationStep_frames (this : TSPVisualizer) (start : Z)
    (fuel : nat) :
  distance_matrix_ok (length (nodes this)) (distanceMatrix this) →
  0 ≤ start < Z.of_nat (length (nodes this)) →
  (length (nodes this) ≤ S fuel)%nat →
  ∃ r, findMinRoute fuel this start = Return r ∧
    ∀ k, (k < length (nodes this))%nat →
      drawAnimationStep this (steps r) k = Return (tour_frame this r k) ∧
      length (tour_segments (nodes this) (finalPath r) k) = k ∧
      ∃ a b node1 node2,
        finalPath r !! k = Some a ∧ finalPath r !! S k = Some b ∧
        js_index (nodes this) a = Some node1 ∧
        js_index (nodes this) b = Some node2 ∧
        tour_frame this r k =
          (graph_edges this ++ map Dot (nodes this)) ++
          tour_segments (nodes this) (finalPath r) k ++
          [Highlight a b node1 node2;
           CostText (sum_costs (take (S k) (steps r)))].
Proof.
  intros HM Hstart Hfuel.
  destruct (findMinRoute_valid this start fuel HM Hstart Hfuel)
    as (r & path & Hrun & Hfinal & Hlen & _ & Hrange & _ & Hsteps & _ & Hfollow).
  exists r. split; [exact Hrun |]. intros k Hk.
  assert (∀ c, c ∈ finalPath r → 0 ≤ c < Z.of_nat (length (nodes this)))
    as Hrange'.
  { intros c Hc. rewrite Hfinal in Hc.
    apply elem_of_app in Hc as [Hc | Hc]; [by apply Hrange |].
    by apply list_elem_of_singleton in Hc as ->. }
  assert (length (finalPath r) = S (length (nodes this))) as Hlen'.
  { rewrite Hfinal, length_app. cbn. lia. }
  destruct (lookup_lt_is_Some_2 (steps r) k) as [step Hstep]; [lia |].
  destruct (Hfollow k step Hstep) as (Hpath & Hcur & Hnext).
  pose proof (Hrange' _ (list_elem_of_lookup_2 _ _ _ Hcur)) as Hcur_range.
  pose proof (Hrange' _ (list_elem_of_lookup_2 _ _ _ Hnext)) as Hnext_range.
  destruct (lookup_lt_is_Some_2 (nodes this) (Z.to_nat (currentCity step)))
    as [node1 Hnode1]; [lia |].
  destruct (lookup_lt_is_Some_2 (nodes this) (Z.to_nat (nextCity step)))
    as [node2 Hnode2]; [lia |].
  destruct (draw_path_segments (nodes this) (finalPath r) Hrange' k 0)
    as [_ Hcount]; [lia |].
  assert (tour_frame this r k =
          (graph_edges this ++ map Dot (nodes this)) ++
          tour_segments (nodes this) (finalPath r) k ++
          [Highlight (currentCity step) (nextCity step) node1 node2;
           CostText (sum_costs (take (S k) (steps r)))]) as Hframe.
  { unfold tour_frame. rewrite Hcur, Hnext.
    rewrite !js_index_nonneg by lia. by rewrite Hnode1, Hnode2. }
  split; [| split; [exact Hcount |]].
  - rewrite Hframe. unfold drawAnimationStep.
    rewrite drawGraph_returns by (by rewrite (dm_rows _ _ HM)).
    cbn [mbind outcome_bind]. rewrite Hstep, Hpath.
    assert (length (take (S k) (finalPath r)) - 1 = k)%nat as ->.
    { rewrite length_take. lia. }
    destruct (draw_path_segments (nodes this) (take (S k) (finalPath r)))
      with (k := k) (i := 0%nat) as [-> _].
    { intros c Hc. apply elem_of_take in Hc as (i & Hi & _).
      apply Hrange'. by eapply list_elem_of_lookup_2. }
    { rewrite length_take. lia. }
    cbn [mbind outcome_bind].
    fold (tour_segments (nodes this) (take (S k) (finalPath r)) k).
    rewrite tour_segments_take.
    assert ((k <? length (steps r))%nat = true) as ->
      by (apply Nat.ltb_lt; lia).
    unfold node_of. rewrite !js_index_nonneg by lia.
    rewrite Hnode1, Hnode2. cbn [mbind outcome_bind].
    unfold costSoFar. rewrite cost_loop_prefix by lia.
    cbn [mbind outcome_bind]. by rewrite drop_0.
  - exists (currentCity step), (nextCity step), node1, node2.
    rewrite !js_index_nonneg by lia. done.
Qed.

(** X6.  Whatever the random draws, generateRandomGraph returns: it places
    at most numNodes points, the point at index j has the id j, the matrix it
    stores has N rows of N cells, and the drawGraph call that ends it
    (line 172) draws the whole graph without error. *)
Theorem generateRandomGraph_drawn (rnd : nat → num) (this : TSPVisualizer) :
  ∃ this', generateRandomGraph rnd this = Return this' ∧
    (length (nodes this') ≤ Z.to_nat (numNodes rnd))%nat ∧
    (∀ j node, nodes this' !! j = Some node → node_id node = Z.of_nat j) ∧
    square_shape (length (nodes this')) (distanceMatrix this') ∧
    drawGraph this' = Return (graph_edges this' ++ map Dot (nodes this')).
Proof.
  unfold generateRandomGraph.
  match goal with
  | |- ∃ this', calculateDistanceMatrix ?t = _ ∧ _ =>
      destruct (calculateDistanceMatrix_cells t) as (M & -> & Hshape & _)
  end.
  eexists. split; [reflexivity |]. cbn [nodes distanceMatrix] in *.
  destruct (place_nodes_shape rnd (canvas_width this) (canvas_height this)
              (Z.to_nat (numNodes rnd)) 0 1%nat [])
    as (Hids & Hlen & _); [reflexivity | |].
  { intros j node Hj. by rewrite lookup_nil in Hj. }
  split; [exact Hlen |]. split; [exact Hids |]. split; [exact Hshape |].
  apply drawGraph_returns. cbn [nodes distanceMatrix].
  destruct Hshape as [-> _]. lia.
Qed.

(** X11.  The frames of a tour.  On a valid matrix, for every tick k < N
    drawAnimationStep returns; it draws the graph, then the first k edges of
    the final path as k green segments, then the highlight of the edge from
    finalPath[k] to finalPath[k+1], and the cost of the steps 0 .. k. *)
Theorem drawAnimationStep_tour (this : TSPVisualizer) (start : Z)
    (fuel : nat) :
  distance_matrix_ok (length (nodes this)) (distanceMatrix this) →
  0 ≤ start < Z.of_nat (length (nodes this)) →
  (length (nodes this) ≤ S fuel)%nat →
  ∃ r, findMinRoute fuel this start = Return r ∧
    ∀ k, (k < length (nodes this))%nat →
      drawAnimationStep this (steps r) k = Return (tour_frame this r k) ∧
      length (tour_segments (nodes this) (finalPath r) k) = k ∧
      ∃ a b node1 node2,
        finalPath r !! k = Some a ∧ finalPath r !! S k = Some b ∧
        js_index (nodes this) a = Some node1 ∧
        js_index (nodes this) b = Some node2 ∧
        tour_frame this r k =
          (graph_edges this ++ map Dot (nodes this)) ++
          tour_segments (nodes this) (finalPath r) k ++
          [Highlight a b node1 node2;
           CostText (sum_costs (take (S k) (steps r)))].
Proof. apply drawAnimationStep_frames. Qed.

End Drawing.

(** ** The animation and clicks *)

Section Animation.
Context `{Rounding}.

Lemma animateStep_frame (this : TSPVisualizer) (r : TourResult) (k : nat) :
  (k < length (steps r))%nat →
  drawAnimationStep this (steps r) k = Return (tour_frame this r k) →
  animateStep this {| an_result := r; an_step := k |} =
  Return ([Paint (tour_frame this r k)],
          {| an_result := r; an_step := S k |}, true).
Proof.
  intros Hk Hdraw. unfold animateStep. cbn [an_result an_step].
  assert ((k <? length (steps r))%nat = true) as -> by by apply Nat.ltb_lt.
  by rewrite Hdraw.
Qed.

Lemma animateStep_end (this : TSPVisualizer) (r : TourResult) (k : nat) :
  (length (steps r) ≤ k)%nat →
  animateStep this {| an_result := r; an_step := k |} =
  Return ([SetTotalWeight (Some (totalCost r)); SetAnimating false],
          {| an_result := r; an_step := k |}, false).
Proof.
  intros Hk. unfold animateStep. cbn [an_result an_step].
  by assert ((k <? length (steps r))%nat = false) as ->
    by by apply Nat.ltb_ge.
Qed.

(** The callbacks of an animation whose frames are drawn without error. *)
Lemma play_frames (this : TSPVisualizer) (r : TourResult) :
  (∀ k, (k < length (steps r))%nat →
        drawAnimationStep this (steps r) k = Return (tour_frame this r k)) →
  ∀ ticks k, (k ≤ length (steps r))%nat →
    play this ticks {| an_result := r; an_step := k |} true =
    if (ticks <=? length (steps r) - k)%nat
    then (frames_painted this r k ticks,
          Return ({| an_result := r; an_step := k + ticks |}, true))
    else (frames_painted this r k (length (steps r) - k) ++
            [SetTotalWeight (Some (totalCost r)); SetAnimating false],
          Return ({| an_result := r; an_step := length (steps r) |}, false)).
Proof.
  intros Hdraw. set (n := length (steps r)).
  induction ticks as [| ticks IH]; intros k Hk.
  { cbn. by rewrite Nat.add_0_r. }
  cbn [play]. destruct (decide (k < n)%nat) as [Hlt | Hge].
  - rewrite animateStep_frame; [| exact Hlt | by apply Hdraw].
    rewrite IH by lia.
    replace (k + S ticks)%nat with (S k + ticks)%nat by lia.
    destruct (Nat.leb_spec ticks (n - S k)) as [Hle | Hgt].
    + assert ((S ticks <=? n - k)%nat = true) as ->
        by (apply Nat.leb_le; lia).
      reflexivity.
    + assert ((S ticks <=? n - k)%nat = false) as ->
        by (apply Nat.leb_gt; lia).
      replace (n - k)%nat with (S (n - S k)) by lia. reflexivity.
  - assert (k = n) as -> by lia.
    rewrite animateStep_end by (fold n; lia).
    assert ((S ticks <=? n - n)%nat = false) as ->
      by (apply Nat.leb_gt; lia).
    rewrite Nat.sub_diag. by destruct ticks.
Qed.

(** The events of an animation. *)
Lemma animate_frames (this : TSPVisualizer) (start : Z) (fuel : nat) :
  distance_matrix_ok (length (nodes this)) (distanceMatrix this) →
  0 ≤ start < Z.of_nat (length (nodes this)) →
  (length (nodes this) ≤ S fuel)%nat →
  ∃ r, findMinRoute fuel this start = Return r ∧
    length (steps r) = length (nodes this) ∧
    (∀ k, (k < length (steps r))%nat →
          drawAnimationStep this (steps r) k = Return (tour_frame this r k)) ∧
    startTSPAnimation fuel this start =
      ([SetAnimating true; Paint (tour_frame this r 0)],
       Return ({| an_result := r; an_step := 1 |}, true)).
Proof.
  intros HM Hstart Hfuel.
  destruct (drawAnimationStep_frames this start fuel HM Hstart Hfuel)
    as (r & Hrun & Hframes).
  destruct (findMinRoute_valid this start fuel HM Hstart Hfuel)
    as (r' & _ & Hrun' & _ & _ & _ & _ & _ & Hsteps & _).
  rewrite Hrun in Hrun'. injection Hrun' as <-.
  exists r. split; [exact Hrun |]. split; [exact Hsteps |].
  assert (∀ k, (k < length (steps r))%nat →
            drawAnimationStep this (steps r) k = Return (tour_frame this r k))
    as Hdraw.
  { intros k Hk. apply Hframes. lia. }
  split; [exact Hdraw |].
  unfold startTSPAnimation. rewrite Hrun.
  rewrite animateStep_frame; [reflexivity | lia | apply Hdraw; lia].
Qed.

(** X12.  The animation of a tour.  On a valid matrix startTSPAnimation sets
    animating and paints the frame of step 0; each callback paints the next
    frame; the callback after the N-th frame reports the total cost of the
    tour, clears animating and schedules nothing more.  So the events within
    [ticks] callbacks are: animating, the frames 0 .. ticks while
    ticks < N, and from N callbacks on all N frames, then the total weight
    and the end of animating. *)
Theorem animate_events (this : TSPVisualizer) (start : Z) (fuel : nat) :
  distance_matrix_ok (length (nodes this)) (distanceMatrix this) →
  0 ≤ start < Z.of_nat (length (nodes this)) →
  (length (nodes this) ≤ S fuel)%nat →
  ∃ r, findMinRoute fuel this start = Return r ∧
    ∀ ticks,
      animate fuel this start ticks =
      if (ticks <? length (nodes this))%nat
      then (SetAnimating true :: frames_painted this r 0 (S ticks),
            Return ({| an_result := r; an_step := S ticks |}, true))
      else (SetAnimating true ::
              frames_painted this r 0 (length (nodes this)) ++
              [SetTotalWeight (Some (totalCost r)); SetAnimating false],
            Return ({| an_result := r;
                       an_step := length (nodes this) |}, false)).
Proof.
  intros HM Hstart Hfuel.
  destruct (animate_frames this start fuel HM Hstart Hfuel)
    as (r & Hrun & Hsteps & Hdraw & Hfirst).
  exists r. split; [exact Hrun |]. intros ticks.
  unfold animate. rewrite Hfirst.
  rewrite (play_frames this r Hdraw ticks 1) by lia. rewrite Hsteps.
  destruct (length (nodes this)) as [| m]; [lia |].
  cbn [Nat.sub]. rewrite Nat.sub_0_r.
  destruct (Nat.ltb_spec ticks (S m)) as [Hlt | Hge].
  - assert ((ticks <=? m)%nat = true) as -> by (apply Nat.leb_le; lia).
    reflexivity.
  - assert ((ticks <=? m)%nat = false) as -> by (apply Nat.leb_gt; lia).
    reflexivity.
Qed.

(** X13.  On a valid matrix, the cost printed with the last frame of the
    animation is the total cost that is reported when the animation ends. *)
Theorem animation_last_cost (this : TSPVisualizer) (start : Z) (fuel : nat) :
  distance_matrix_ok (length (nodes this)) (distanceMatrix this) →
  0 ≤ start < Z.of_nat (length (nodes this)) →
  (length (nodes this) ≤ S fuel)%nat →
  ∃ r, findMinRoute fuel this start = Return r ∧
       costSoFar (steps r) (length (nodes this) - 1) = Return (totalCost r).
Proof.
  intros HM Hstart Hfuel.
  destruct (findMinRoute_valid this start fuel HM Hstart Hfuel)
    as (r & _ & Hrun & _ & _ & _ & _ & _ & Hsteps & Hcost & _).
  exists r. split; [exact Hrun |]. unfold costSoFar.
  rewrite cost_loop_prefix by lia. rewrite drop_0, Hcost.
  replace (S (length (nodes this) - 1)) with (length (steps r)) by lia.
  by rewrite firstn_all.
Qed.

(** The loop of [handleNodeClick] returns, with the first node hit. *)
Lemma clicked_node_first (ns : list Node) (x y : num) :
  ∀ k i, (i + k = length ns)%nat →
    ∃ o, clicked_node ns x y k i = Return o ∧
      match o with
      | Some j =>
          (i ≤ j)%nat ∧
          (∃ node, ns !! j = Some node ∧ hits x y node = true) ∧
          ∀ j' node', (i ≤ j' < j)%nat → ns !! j' = Some node' →
                      hits x y node' = false
      | None =>
          ∀ j' node', (i ≤ j')%nat → ns !! j' = Some node' →
                      hits x y node' = false
      end.
Proof.
  induction k as [| k IH]; intros i Hi.
  { exists None. split; [reflexivity |]. intros j' node' Hj' Hnode'.
    apply lookup_lt_Some in Hnode'. lia. }
  destruct (lookup_lt_is_Some_2 ns i) as [node Hnode]; [lia |].
  cbn [clicked_node]. rewrite Hnode. fold (hits x y node).
  destruct (hits x y node) eqn:Hhit.
  - exists (Some i). split; [reflexivity |]. split; [lia |].
    split; [by exists node | intros; lia].
  - destruct (IH (S i)) as (o & -> & Ho); [lia |].
    exists o. split; [reflexivity |]. destruct o as [j |].
    + destruct Ho as (Hj & Hhitj & Hbefore). split; [lia |].
      split; [exact Hhitj |]. intros j' node' Hj' Hnode'.
      destruct (decide (j' = i)) as [-> | Hne]; [congruence |].
      apply (Hbefore j'); [lia | exact Hnode'].
    + intros j' node' Hj' Hnode'.
      destruct (decide (j' = i)) as [-> | Hne]; [congruence |].
      apply (Ho j'); [lia | exact Hnode'].
Qed.

(** X14.  The search of handleNodeClick never throws: it finds the first
    node, in index order, whose centre is within 10 of the click, or none
    when no node is within 10. *)
Theorem clicked_node_first_hit (ns : list Node) (x y : num) :
  ∃ o, clicked_node ns x y (length ns) 0 = Return o ∧
    match o with
    | Some j =>
        (∃ node, ns !! j = Some node ∧ hits x y node = true) ∧
        ∀ j' node', (j' < j)%nat → ns !! j' = Some node' →
                    hits x y node' = false
    | None => ∀ node, node ∈ ns → hits x y node = false
    end.
Proof.
  destruct (clicked_node_first ns x y (length ns) 0) as (o & Hrun & Ho);
    [lia |].
  exists o. split; [exact Hrun |]. destruct o as [j |].
  - destruct Ho as (_ & Hhit & Hbefore). split; [exact Hhit |].
    intros j' node' Hj'. apply Hbefore. lia.
  - intros node Hin. apply list_elem_of_lookup in Hin as [j Hj].
    apply (Ho j); [lia | exact Hj].
Qed.

Lemma clicked_node_hit (ns : list Node) (x y : num) (i : nat) (node : Node) :
  ns !! i = Some node → hits x y node = true →
  (∀ j node', (j < i)%nat → ns !! j = Some node' → hits x y node' = false) →
  clicked_node ns x y (length ns) 0 = Return (Some i).
Proof.
  intros Hnode Hhit Hbefore.
  destruct (clicked_node_first ns x y (length ns) 0) as (o & Hrun & Ho);
    [lia |].
  rewrite Hrun. destruct o as [j |].
  - destruct Ho as (_ & (nodej & Hnodej & Hhitj) & Hfirst).
    destruct (Nat.lt_trichotomy j i) as [Hlt | [-> | Hgt]]; [| done |].
    + rewrite (Hbefore j nodej Hlt Hnodej) in Hhitj. discriminate.
    + rewrite (Hfirst i node) in Hhit by (auto; lia). discriminate.
  - rewrite (Ho i node) in Hhit by (auto; lia). discriminate.
Qed.

(** X15.  A click on a node starts its tour.  On a valid matrix, a click
    within 10 of the centre of the node at index i, and of no node before
    it, makes handleNodeClick start the animation of the tour from city i: it
    sets animating and paints the frame of step 0, with the next frame
    scheduled; it never throws. *)
Theorem handleNodeClick_starts (this : TSPVisualizer) (x y : num)
    (i : nat) (node : Node) (fuel : nat) :
  distance_matrix_ok (length (nodes this)) (distanceMatrix this) →
  (length (nodes this) ≤ S fuel)%nat →
  nodes this !! i = Some node → hits x y node = true →
  (∀ j node', (j < i)%nat → nodes this !! j = Some node' →
              hits x y node' = false) →
  ∃ r, findMinRoute fuel this (Z.of_nat i) = Return r ∧
       head (finalPath r) = Some (Z.of_nat i) ∧
       handleNodeClick fuel this x y =
         ([SetAnimating true; Paint (tour_frame this r 0)],
          Return (Some ({| an_result := r; an_step := 1 |}, true))).
Proof.
  intros HM Hfuel Hnode Hhit Hbefore.
  pose proof (lookup_lt_Some _ _ _ Hnode) as Hi.
  destruct (animate_frames this (Z.of_nat i) fuel HM) as
    (r & Hrun & _ & _ & Hstart); [lia | exact Hfuel |].
  destruct (findMinRoute_valid this (Z.of_nat i) fuel HM)
    as (r' & path & Hrun' & Hfinal & _ & _ & _ & Hhead & _);
    [lia | exact Hfuel |].
  rewrite Hrun in Hrun'. injection Hrun' as <-.
  exists r. split; [exact Hrun |]. split.
  { rewrite Hfinal. destruct path; [discriminate | exact Hhead]. }
  unfold handleNodeClick.
  rewrite (clicked_node_hit _ x y i node Hnode Hhit Hbefore).
  by rewrite Hstart.
Qed.

(** X16.  A click that is within 10 of no node does nothing: no event, no
    tour, no error. *)
Theorem handleNodeClick_miss (this : TSPVisualizer) (x y : num)
    (fuel : nat) :
  (∀ node, node ∈ nodes this → hits x y node = false) →
  handleNodeClick fuel this x y = ([], Return None).
Proof.
  intros Hmiss. unfold handleNodeClick.
  destruct (clicked_node_first (nodes this) x y (length (nodes this)) 0)
    as (o & -> & Ho); [lia |].
  destruct o as [j |]; [| reflexivity].
  destruct Ho as (_ & (node & Hnode & Hhit) & _).
  rewrite (Hmiss node) in Hhit by (by eapply list_elem_of_lookup_2).
  discriminate.
Qed.

End Animation.

(** ** The statements above on the square and on generated graphs *)

Section MoreExamples.
#[local] Existing Instance float_number.
#[local] Existing Instance float_rounding.

Lemma findMinRoute_step_costs_witness :
  ∃ r, findMinRoute 3 square 0 = Return r ∧
    ∀ step, step ∈ steps r →
      step_cost_entry (distanceMatrix square) 4 step.
Proof.
  apply (findMinRoute_step_costs square 0 3).
  - apply distance_matrix_okb_sound. vm_compute. reflexivity.
  - simpl. lia.
  - simpl. lia.
  - simpl. lia.
Defined.

Lemma findMinRoute_steps_nearest_witness :
  ∃ r, findMinRoute 3 square 0 = Return r ∧
    ∀ i step, (S i < length (steps r))%nat → steps r !! i = Some step →
      step_nearest (distanceMatrix square) 4 step.
Proof.
  apply (@findMinRoute_steps_nearest float_number float_laws square 0 3).
  - apply distance_matrix_okb_sound. vm_compute. reflexivity.
  - simpl. lia.
  - simpl. lia.
Defined.

Lemma findMinRoute_totalCost_of_path_witness :
  ∃ r, findMinRoute 3 square 0 = Return r ∧
       totalCost r = path_cost (distanceMatrix square) (finalPath r).
Proof.
  apply (findMinRoute_totalCost_of_path square 0 3).
  - apply distance_matrix_okb_sound. vm_compute. reflexivity.
  - simpl. lia.
  - simpl. lia.
Defined.

Lemma findMinRoute_never_returns_witness :
  findMinRoute 1000 far_apart 0 = OutOfFuel.
Proof.
  refine (findMinRoute_never_returns far_apart 0 [infinity; infinity]
            _ _ _ 1000%nat).
  - simpl. lia.
  - reflexivity.
  - intros c dc Hc Hne Hdc. assert (c = 1) as -> by (simpl in Hc; lia).
    injection Hdc as <-. reflexivity.
Defined.

Lemma findMinRoute_on_points_witness :
  ∃ this' r,
    calculateDistanceMatrix (canvas square_nodes []) = Return this' ∧
    findMinRoute 3 this' 0 = Return r ∧
    (∀ step, step ∈ steps r →
       ∃ p q, js_index square_nodes (currentCity step) = Some p ∧
              js_index square_nodes (nextCity step) = Some q ∧
              costAdded step = Some (capped_distance lit_0_2 (of_Z 99) p q) ∧
              leb (of_Z 0) (capped_distance lit_0_2 (of_Z 99) p q) = true ∧
              leb (capped_distance lit_0_2 (of_Z 99) p q) (of_Z 99) = true) ∧
    leb (of_Z 0) (totalCost r) = true.
Proof.
  apply (@findMinRoute_on_points float_number float_laws
           (canvas square_nodes []) 0 3).
  - intros p Hp. repeat (apply elem_of_cons in Hp as [-> | Hp]; [by split |]).
    by apply elem_of_nil in Hp.
  - simpl. lia.
  - simpl. lia.
  - simpl. lia.
Defined.

Lemma generateRandomGraph_truncated_witness :
  (length (nodes crowded) < Z.to_nat (numNodes crowded_draws))%nat ∧
  ∃ c, ∀ t, (t < 100)%nat →
    isValidNodePosition (nodes crowded)
      (candidate (crowded_draws (c + 2 * t)%nat) (of_Z 800))
      (candidate (crowded_draws (S (c + 2 * t))) (of_Z 600)) (of_Z 38)
    = false.
Proof.
  assert (length (nodes crowded) < Z.to_nat (numNodes crowded_draws))%nat
    as Hshort by (vm_compute; lia).
  split; [exact Hshort |].
  apply (generateRandomGraph_truncated crowded_draws (canvas [] []) crowded);
    [reflexivity | exact Hshort].
Defined.

Lemma generateRandomGraph_tour_witness :
  distance_matrix_ok 6 (distanceMatrix six_points) ∧
  ∃ r, findMinRoute 5 six_points 2 = Return r ∧
       length (steps r) = 6%nat ∧
       length (finalPath r) = 7%nat ∧
       head (finalPath r) = Some 2 ∧
       last (finalPath r) = Some 2.
Proof.
  apply (@generateRandomGraph_tour float_number float_laws
           six_draws (canvas [] []) six_points 2 5).
  - reflexivity.
  - intros p Hp. repeat (apply elem_of_cons in Hp as [-> | Hp]; [by split |]).
    by apply elem_of_nil in Hp.
  - simpl. lia.
  - simpl. lia.
Defined.

Lemma drawGraph_edges_witness :
  drawGraph square = Return (graph_edges square ++ map Dot (nodes square)) ∧
  length (graph_edges square) = 12%nat.
Proof. apply (drawGraph_edges square). simpl. lia. Defined.

Lemma drawAnimationStep_past_end_witness :
  drawAnimationStep square square_steps 4 = Throw TypeError.
Proof.
  apply (drawAnimationStep_past_end square square_steps 4). simpl. lia.
Defined.

Lemma drawAnimationStep_tour_witness :
  ∃ r, findMinRoute 3 square 0 = Return r ∧
    ∀ k, (k < 4)%nat →
      drawAnimationStep square (steps r) k = Return (tour_frame square r k) ∧
      length (tour_segments (nodes square) (finalPath r) k) = k ∧
      ∃ a b node1 node2,
        finalPath r !! k = Some a ∧ finalPath r !! S k = Some b ∧
        js_index (nodes square) a = Some node1 ∧
        js_index (nodes square) b = Some node2 ∧
        tour_frame square r k =
          (graph_edges square ++ map Dot (nodes square)) ++
          tour_segments (nodes square) (finalPath r) k ++
          [Highlight a b node1 node2;
           CostText (sum_costs (take (S k) (steps r)))].
Proof.
  apply (drawAnimationStep_tour square 0 3).
  - apply distance_matrix_okb_sound. vm_compute. reflexivity.
  - simpl. lia.
  - simpl. lia.
Defined.

Lemma animate_events_witness :
  ∃ r, findMinRoute 3 square 0 = Return r ∧
    ∀ ticks,
      animate 3 square 0 ticks =
      if (ticks <? 4)%nat
      then (SetAnimating true :: frames_painted square r 0 (S ticks),
            Return ({| an_result := r; an_step := S ticks |}, true))
      else (SetAnimating true ::
              frames_painted square r 0 4 ++
              [SetTotalWeight (Some (totalCost r)); SetAnimating false],
            Return ({| an_result := r; an_step := 4 |}, false)).
Proof.
  apply (animate_events square 0 3).
  - apply distance_matrix_okb_sound. vm_compute. reflexivity.
  - simpl. lia.
  - simpl. lia.
Defined.

Lemma animation_last_cost_witness :
  ∃ r, findMinRoute 3 square 0 = Return r ∧
       costSoFar (steps r) 3 = Return (totalCost r).
Proof.
  apply (animation_last_cost square 0 3).
  - apply distance_matrix_okb_sound. vm_compute. reflexivity.
  - simpl. lia.
  - simpl. lia.
Defined.

Lemma handleNodeClick_starts_witness :
  ∃ r, findMinRoute 3 square 1 = Return r ∧
       head (finalPath r) = Some 1 ∧
       handleNodeClick 3 square (of_Z 12) (of_Z 7) =
         ([SetAnimating true; Paint (tour_frame square r 0)],
          Return (Some ({| an_result := r; an_step := 1 |}, true))).
Proof.
  apply (handleNodeClick_starts square (of_Z 12) (of_Z 7) 1 (point 10 0 1) 3).
  - apply distance_matrix_okb_sound. vm_compute. reflexivity.
  - simpl. lia.
  - reflexivity.
  - reflexivity.
  - intros j node' Hj Hnode'. destruct j as [| j]; [| lia].
    injection Hnode' as <-. reflexivity.
Defined.

Lemma handleNodeClick_miss_witness :
  handleNodeClick 3 square (of_Z 50) (of_Z 50) = ([], Return None).
Proof.
  apply (handleNodeClick_miss square (of_Z 50) (of_Z 50) 3).
  intros node Hnode.
  repeat (apply elem_of_cons in Hnode as [-> | Hnode]; [reflexivity |]).
  by apply elem_of_nil in Hnode.
Defined.

End MoreExamples.
